(** * ClashStream: the stream-URL cache and the range proxy of [server.js]

  The development embeds the parts of [server.js] that own state or
  decide a response: the [urlCache] map with the registration blocks
  of [/search] and [/play/:videoId], the clean-up loop of [/search],
  and the [/proxy/:streamId] handler with the callbacks it installs.
  The extraction tool, the clock, the random source and the HTTP
  runtime are inputs of the model. *)

From Stdlib Require Import ZArith String Ascii List Lia Bool.
From stdpp Require Import base gmap strings fin_maps.
Import ListNotations.

Open Scope Z_scope.

(** ** JavaScript primitives used by the handlers *)

Module Js.

(** One digit of [Number.prototype.toString(36)]: [0-9] then [a-z]. *)
Definition digit36 (d : Z) : ascii :=
  if d <? 10 then ascii_of_nat (Z.to_nat (48 + d))
  else ascii_of_nat (Z.to_nat (87 + d)).

(** Digits of a non-negative integer, most significant first, pushed in
    front of [acc]. [fuel] bounds the number of further divisions. *)
Fixpoint digits36 (fuel : nat) (n : Z) (acc : string) : string :=
  let acc' := String (digit36 (n mod 36)) acc in
  match fuel with
  | O => acc'
  | S fuel' => if n / 36 =? 0 then acc' else digits36 fuel' (n / 36) acc'
  end.

(** [n.toString(36)] for an integer [n]. *)
Definition toString36 (n : Z) : string :=
  if n <? 0
  then String "-"%char (digits36 (Z.to_nat (Z.log2 (- n))) (- n) EmptyString)
  else digits36 (Z.to_nat (Z.log2 n)) n EmptyString.

(** [s.substring(a, b)]: the arguments are swapped when [a > b] and
    clipped to the length of [s]. *)
Definition substring (s : string) (a b : nat) : string :=
  String.substring (Nat.min a b) (Nat.max a b - Nat.min a b) s.

(** [s.split('\n')[0]]: the text before the first line feed. *)
Fixpoint first_line (s : string) : string :=
  match s with
  | EmptyString => EmptyString
  | String c rest =>
      if Ascii.eqb c "010"%char then EmptyString else String c (first_line rest)
  end.

(** [s.startsWith(p)]. *)
Definition startsWith (s p : string) : bool := String.prefix p s.

(** Truthiness of a string: only the empty string is falsy. *)
Definition truthy (s : string) : bool :=
  match s with
  | EmptyString => false
  | String _ _ => true
  end.

(** Truthiness of [obj[key]] where the property is a string when
    present and [undefined] otherwise. *)
Definition truthy_prop (o : option string) : option string :=
  match o with
  | Some s => if truthy s then Some s else None
  | None => None
  end.

(** [x || d] for such a property [x] and a string [d]. *)
Definition or_default (o : option string) (d : string) : string :=
  match truthy_prop o with
  | Some s => s
  | None => d
  end.

End Js.

(** ** [Map]: insertion-ordered, one binding per key

  [urlCache] is a JavaScript [Map]. The clean-up loop iterates it in
  insertion order and reads the clock at every entry, so that the model
  keeps the order of the bindings. *)

Section JsMap.
Context {V : Type}.

Definition jsmap : Type := list (string * V).

Fixpoint Map_get (k : string) (m : jsmap) : option V :=
  match m with
  | [] => None
  | (k', v) :: rest => if String.eqb k' k then Some v else Map_get k rest
  end.

(** [set] replaces the value of an existing key in place and appends a
    new key at the end. *)
Fixpoint Map_set (k : string) (v : V) (m : jsmap) : jsmap :=
  match m with
  | [] => [(k, v)]
  | (k', v') :: rest =>
      if String.eqb k' k then (k, v) :: rest else (k', v') :: Map_set k v rest
  end.

Fixpoint Map_delete (k : string) (m : jsmap) : jsmap :=
  match m with
  | [] => []
  | (k', v') :: rest =>
      if String.eqb k' k then Map_delete k rest else (k', v') :: Map_delete k rest
  end.

Definition Map_size (m : jsmap) : nat := length m.

End JsMap.

Arguments jsmap V : clear implicits.

(** ** The stream registry *)

(** A cached value [{ url, expires }]. *)
Record entry : Type := Entry { url : string; expires : Z }.

(** [3600000]: one hour in milliseconds, added to [Date.now()]. *)
Definition TTL : Z := 3600000.

(** [Date.now().toString(36) + Math.random().toString(36).substring(2, 8)];
    [now] is the clock reading and [rnd] the text of
    [Math.random().toString(36)]. *)
Definition streamId (now : Z) (rnd : string) : string :=
  String.append (Js.toString36 now) (Js.substring rnd 2 8).

(** [urlCache.set(streamId, { url, expires: Date.now() + ttl })]. *)
Definition register_with (ttl : Z) (id u : string) (now : Z)
    (urlCache : jsmap entry) : jsmap entry :=
  Map_set id {| url := u; expires := now + ttl |} urlCache.

(** The registration as the handlers write it, with the one-hour expiry. *)
Definition register (id u : string) (now : Z) (urlCache : jsmap entry)
    : jsmap entry :=
  register_with TTL id u now urlCache.

(** The clean-up loop
    [for (const [key, value] of urlCache)
       if (value.expires < Date.now()) urlCache.delete(key)].
    The loop deletes nothing but the binding it is visiting, so that it
    visits every binding the map held when it started: [todo] holds the
    bindings still to be visited, [urlCache] is the live map, and
    [clock i] is the reading of [Date.now()] at the [i]-th visit. *)
Fixpoint sweep_from (clock : nat -> Z) (i : nat) (todo urlCache : jsmap entry)
    : jsmap entry :=
  match todo with
  | [] => urlCache
  | (key, value) :: rest =>
      sweep_from clock (S i) rest
        (if expires value <? clock i then Map_delete key urlCache else urlCache)
  end.

Definition sweep (clock : nat -> Z) (urlCache : jsmap entry) : jsmap entry :=
  sweep_from clock 0 urlCache urlCache.

(** Registration block of [GET /search] (lines 72-84): fresh id, [set],
    then the clean-up loop. [t_id] and [t_exp] are the two readings of
    [Date.now()] in the block. Returns the id and the new cache. *)
Definition search_register (audioUrl : string) (t_id t_exp : Z) (rnd : string)
    (clock : nat -> Z) (urlCache : jsmap entry) : string * jsmap entry :=
  let id := streamId t_id rnd in
  (id, sweep clock (register id (Js.first_line audioUrl) t_exp urlCache)).

(** Registration block of [GET /play/:videoId] (lines 172-177): fresh id
    and [set]; this handler has no clean-up loop. *)
Definition play_register (audioUrl : string) (t_id t_exp : Z) (rnd : string)
    (urlCache : jsmap entry) : string * jsmap entry :=
  let id := streamId t_id rnd in
  (id, register id (Js.first_line audioUrl) t_exp urlCache).

(** First lines of [GET /proxy/:streamId]: [urlCache.get(streamId)], and
    [cached.url] when the binding exists (an object is always truthy). *)
Definition resolve (id : string) (urlCache : jsmap entry) : option string :=
  match Map_get id urlCache with
  | Some cached => Some (url cached)
  | None => None
  end.

(** A registration request as the registry sees it. *)
Inductive op : Type :=
| OpSearch (audioUrl : string) (t_id t_exp : Z) (rnd : string) (clock : nat -> Z)
| OpPlay (audioUrl : string) (t_id t_exp : Z) (rnd : string).

Definition op_id (o : op) : string :=
  match o with
  | OpSearch _ t_id _ rnd _ => streamId t_id rnd
  | OpPlay _ t_id _ rnd => streamId t_id rnd
  end.

Definition apply_op (urlCache : jsmap entry) (o : op) : jsmap entry :=
  match o with
  | OpSearch audioUrl t_id t_exp rnd clock =>
      snd (search_register audioUrl t_id t_exp rnd clock urlCache)
  | OpPlay audioUrl t_id t_exp rnd =>
      snd (play_register audioUrl t_id t_exp rnd urlCache)
  end.

(** The cache after a history of registrations, from the empty map the
    process starts with. *)
Definition run_ops (ops : list op) : jsmap entry := fold_left apply_op ops [].

(** ** HTTP messages *)

(** ASCII lower-casing: Node keys header names by their lower-case form. *)
Definition lower_char (c : ascii) : ascii :=
  let n := nat_of_ascii c in
  if (Nat.leb 65 n && Nat.leb n 90)%bool then ascii_of_nat (n + 32) else c.

Fixpoint toLowerCase (s : string) : string :=
  match s with
  | EmptyString => EmptyString
  | String c rest => String (lower_char c) (toLowerCase rest)
  end.

(** The double quote character. *)
Definition dquote : string := String "034"%char EmptyString.

(** [JSON.stringify] of a string: quotes and backslashes are escaped
    (the texts [server.js] serializes are printable ASCII). *)
Fixpoint json_escape (s : string) : string :=
  match s with
  | EmptyString => EmptyString
  | String c rest =>
      if (Ascii.eqb c "034"%char || Ascii.eqb c "092"%char)%bool
      then String "092"%char (String c (json_escape rest))
      else String c (json_escape rest)
  end.

Definition json_string (s : string) : string :=
  String.append dquote (String.append (json_escape s) dquote).

(** [JSON.stringify({ error: msg })]. *)
Definition json_error (msg : string) : string :=
  String.append "{"
    (String.append (json_string "error")
       (String.append ":" (String.append (json_string msg) "}"))).

(** The server response [res]: status line, headers keyed by lower-case
    name, whether the head has gone out, the chunks written, and whether
    the response was ended. *)
Record response : Type := Response {
  statusCode : Z;
  res_headers : gmap string string;
  headersSent : bool;
  res_body : list string;
  res_ended : bool
}.

(** The response object a handler receives. *)
Definition fresh_response : response :=
  {| statusCode := 200; res_headers := ∅; headersSent := false;
     res_body := []; res_ended := false |}.

(** [res.status(code)]. *)
Definition res_status (code : Z) (r : response) : response :=
  {| statusCode := code; res_headers := res_headers r;
     headersSent := headersSent r; res_body := res_body r;
     res_ended := res_ended r |}.

(** [res.setHeader(name, value)]. *)
Definition res_setHeader (name value : string) (r : response) : response :=
  {| statusCode := statusCode r;
     res_headers := <[toLowerCase name := value]> (res_headers r);
     headersSent := headersSent r; res_body := res_body r;
     res_ended := res_ended r |}.

(** [res.getHeader(name)]. *)
Definition res_getHeader (name : string) (r : response) : option string :=
  res_headers r !! toLowerCase name.

(** [res.json({ error: msg })]: the head goes out, the serialized object
    is the body and the response is ended. The headers Express adds on
    its own here are left out of the model. *)
Definition res_json_error (msg : string) (r : response) : response :=
  {| statusCode := statusCode r; res_headers := res_headers r;
     headersSent := true; res_body := res_body r ++ [json_error msg];
     res_ended := true |}.

(** [res.write(chunk)], as [pipe] calls it: the first write sends the
    head. Writing to an ended response has no effect. *)
Definition res_write (chunk : string) (r : response) : response :=
  if res_ended r then r
  else {| statusCode := statusCode r; res_headers := res_headers r;
          headersSent := true; res_body := res_body r ++ [chunk];
          res_ended := res_ended r |}.

(** [res.end()], as [pipe] calls it when the source ends. *)
Definition res_end (r : response) : response :=
  {| statusCode := statusCode r; res_headers := res_headers r;
     headersSent := true; res_body := res_body r; res_ended := true |}.

(** The client request [req]: the [:streamId] path parameter and the
    headers, keyed by lower-case name. *)
Record request : Type := Request {
  params_streamId : string;
  req_headers : gmap string string
}.

Inductive protocol : Type := http | https.

(** The outbound request [proxyReq] made by [protocol.get(audioUrl, { headers })]. *)
Record clientRequest : Type := ClientRequest {
  cr_protocol : protocol;
  cr_url : string;
  cr_headers : gmap string string;
  cr_destroyed : bool
}.

(** [proxyReq.destroy()]. *)
Definition destroy (cr : clientRequest) : clientRequest :=
  {| cr_protocol := cr_protocol cr; cr_url := cr_url cr;
     cr_headers := cr_headers cr; cr_destroyed := true |}.

(** The state of one [/proxy/:streamId] exchange: the response under
    construction, the outbound request when one was made (its callbacks
    are installed with it), whether [proxyRes.pipe(res)] is in effect,
    and the chunks taken from the upstream so far. *)
Record proxy : Type := Proxy {
  res : response;
  proxyReq : option clientRequest;
  piped : bool;
  upstream_read : list string
}.

Definition userAgent : string :=
  "Mozilla/5.0 (Windows NT 10.0; Win64; x64) AppleWebKit/537.36 (KHTML, like Gecko) Chrome/120.0.0.0 Safari/537.36".

(** ** The handler of [GET /proxy/:streamId] *)

(** Lines 237-239: the headers set before the upstream is contacted. *)
Definition audio_head (r : response) : response :=
  res_setHeader "Cache-Control" "no-cache"
    (res_setHeader "Accept-Ranges" "bytes"
       (res_setHeader "Content-Type" "audio/webm" r)).

(** [audioUrl.startsWith('https') ? https : http]. *)
Definition protocol_of (audioUrl : string) : protocol :=
  if Js.startsWith audioUrl "https" then https else http.

(** The [headers] option of [protocol.get]:
    [{ 'User-Agent': ..., 'Range': req.headers.range || 'bytes=0-' }]. *)
Definition get_headers (req : request) : gmap string string :=
  <["Range" := Js.or_default (req_headers req !! "range") "bytes=0-"]>
    (<["User-Agent" := userAgent]> ∅).

Section ProxyHandler.

(** Whether [protocol.get] takes the URL: it throws synchronously on a
    text that is no URL of that protocol, which the handler catches. *)
Variable get_accepts : protocol -> string -> bool.

(** The synchronous part of the handler (lines 224-284). *)
Definition proxy_handler (urlCache : jsmap entry) (req : request) : proxy :=
  match Map_get (params_streamId req) urlCache with
  | None =>
      {| res := res_json_error "Stream not found or expired"
                  (res_status 404 fresh_response);
         proxyReq := None; piped := false; upstream_read := [] |}
  | Some cached =>
      let audioUrl := url cached in
      let res1 := audio_head fresh_response in
      let protocol := protocol_of audioUrl in
      if get_accepts protocol audioUrl then
        {| res := res1;
           proxyReq := Some
             {| cr_protocol := protocol; cr_url := audioUrl;
                cr_headers := get_headers req;
                cr_destroyed := false |};
           piped := false; upstream_read := [] |}
      else
        {| res := res_json_error "Failed to proxy stream" (res_status 500 res1);
           proxyReq := None; piped := false; upstream_read := [] |}
  end.

End ProxyHandler.

(** [if (proxyRes.headers[name]) res.setHeader(Name, proxyRes.headers[name])]. *)
Definition forward_header (Name name : string) (headers : gmap string string)
    (r : response) : response :=
  match Js.truthy_prop (headers !! name) with
  | Some v => res_setHeader Name v r
  | None => r
  end.

(** The response callback of [protocol.get] (lines 250-266). *)
Definition on_response (code : Z) (headers : gmap string string) (p : proxy) : proxy :=
  {| res :=
       forward_header "Content-Range" "content-range" headers
         (forward_header "Content-Length" "content-length" headers
            (forward_header "Content-Type" "content-type" headers
               (res_status code (res p))));
     proxyReq := proxyReq p; piped := true; upstream_read := upstream_read p |}.

(** [proxyReq.on('error', ...)] (lines 268-273). *)
Definition on_error (p : proxy) : proxy :=
  if negb (headersSent (res p)) then
    {| res := res_json_error "Stream failed" (res_status 500 (res p));
       proxyReq := proxyReq p; piped := piped p;
       upstream_read := upstream_read p |}
  else p.

(** [req.on('close', ...)] (lines 276-278). *)
Definition on_close (p : proxy) : proxy :=
  {| res := res p; proxyReq := option_map destroy (proxyReq p);
     piped := piped p; upstream_read := upstream_read p |}.

(** [proxyRes.pipe(res)] relaying one chunk. *)
Definition pipe_data (chunk : string) (p : proxy) : proxy :=
  if piped p then
    {| res := res_write chunk (res p); proxyReq := proxyReq p;
       piped := piped p; upstream_read := upstream_read p ++ [chunk] |}
  else p.

(** [proxyRes.pipe(res)] at the end of the upstream body. *)
Definition pipe_end (p : proxy) : proxy :=
  if piped p then
    {| res := res_end (res p); proxyReq := proxyReq p;
       piped := piped p; upstream_read := upstream_read p |}
  else p.

(** What the runtime can deliver to the callbacks of one exchange. *)
Inductive event : Type :=
| UpstreamResponse (code : Z) (headers : gmap string string)
| UpstreamData (chunk : string)
| UpstreamEnd
| UpstreamError (message : string)
| ClientClose.

(** One turn of the event loop for this exchange. Callbacks exist only
    when the outbound request was made. A destroyed request delivers no
    response, data or end: [destroy] drops what remains of the response
    and closes the socket. *)
Definition dispatch (p : proxy) (e : event) : proxy :=
  match proxyReq p with
  | None => p
  | Some cr =>
      match e with
      | UpstreamResponse code headers =>
          if cr_destroyed cr then p else on_response code headers p
      | UpstreamData chunk => if cr_destroyed cr then p else pipe_data chunk p
      | UpstreamEnd => if cr_destroyed cr then p else pipe_end p
      | UpstreamError _ => on_error p
      | ClientClose => on_close p
      end
  end.

Definition run (p : proxy) (events : list event) : proxy :=
  fold_left dispatch events p.

(** Whether the upstream request of the exchange has been destroyed. *)
Definition is_destroyed (p : proxy) : bool :=
  match proxyReq p with
  | Some cr => cr_destroyed cr
  | None => false
  end.


(** Writes a text holding double quotes from one written with apostrophes. *)
Fixpoint dq (s : string) : string :=
  match s with
  | EmptyString => EmptyString
  | String c rest =>
      String (if Ascii.eqb c "039"%char then "034"%char else c) (dq rest)
  end.

(** The exchange as it stands after the 404 answer. *)
Definition not_found : proxy :=
  {| res := {| statusCode := 404; res_headers := ∅; headersSent := true;
               res_body := [dq "{'error':'Stream not found or expired'}"];
               res_ended := true |};
     proxyReq := None; piped := false; upstream_read := [] |}.

(** A cache holding one entry that expired at time 1000, and requests
    used to run the handlers on it. *)
Definition stale_cache : jsmap entry := [("k", Entry "https://u/a" 1000)].

Definition plain_request (id : string) : request :=
  {| params_streamId := id; req_headers := ∅ |}.

Definition range_request (id range : string) : request :=
  {| params_streamId := id; req_headers := {[ "range" := range ]} |}.

Definition any_url : protocol -> string -> bool := fun _ _ => true.

(** A history of one [/play] registration. *)
Definition one_play : list op :=
  [OpPlay "https://u/b" 1700000000000 1700000000000 "0.4fzyo82mvyr"].

(** An upstream answer to a range request. *)
Definition partial_content : gmap string string :=
  {[ "content-type" := "audio/mp4"; "content-length" := "100";
     "content-range" := "bytes 100-199/500" ]}.

(** As long as the head has not gone out nothing was written and the
    response is open. *)
Definition head_pending (p : proxy) : Prop :=
  headersSent (res p) = false ->
  res_body (res p) = [] /\ res_ended (res p) = false.

(** ** The extractor's answers and the handlers that shape them *)

(** What an awaited call gives back: its value, or the message of the
    error it threw. *)
Inductive awaited (A : Type) : Type :=
| Resolved (value : A)
| Rejected (message : string).

Arguments Resolved {A} value.
Arguments Rejected {A} message.

(** One element of [thumbnails]; [url] may be missing. *)
Record thumbnail_info : Type := ThumbnailInfo { thumb_url : option string }.

(** The object [JSON.parse] makes of yt-dlp's output, with the fields the
    handlers read and the types yt-dlp gives them; [None] is a field
    that is missing or [null]. Numbers are carried as integers. *)
Record info : Type := Info {
  info_id : option string;
  info_title : option string;
  info_thumbnail : option string;
  info_thumbnails : option (list thumbnail_info);
  info_duration : option Z;
  info_channel : option string;
  info_uploader : option string;
  info_view_count : option Z
}.


(** One track of a reply; [None] in [track_audioUrl] or [track_viewCount]
    is a key the object does not have. *)
Record track : Type := Track {
  track_id : option string;
  track_title : string;
  track_thumbnail : string;
  track_audioUrl : option string;
  track_duration : Z;
  track_channel : string;
  track_viewCount : option Z
}.

(** What a handler answers with [res.json]: an error object under a
    status, or a track, or [{ tracks }], both under the default 200. *)
Inductive reply : Type :=
| ReplyError (status : Z) (error : string) (details : option string)
| ReplyTrack (t : track)
| ReplyTracks (tracks : list track).

(** [n || 0] for a numeric field. *)
Definition number_or_zero (n : option Z) : Z :=
  match n with
  | Some z => z
  | None => 0
  end.

(** [thumbnails && thumbnails.length > 0
       ? thumbnails[thumbnails.length - 1].url : '']. *)
Definition last_thumbnail (thumbnails : option (list thumbnail_info))
    : option string :=
  match thumbnails with
  | Some (first :: rest) => thumb_url (List.last rest first)
  | Some [] => Some EmptyString
  | None => Some EmptyString
  end.

(** [metadata.thumbnail || (metadata.thumbnails && ... ? ... : '')]
    (lines 87-90 and 179-182). *)
Definition best_thumbnail (metadata : info) : option string :=
  match Js.truthy_prop (info_thumbnail metadata) with
  | Some t => Some t
  | None => last_thumbnail (info_thumbnails metadata)
  end.

Section Handlers.

(** The built-in [encodeURIComponent]. *)
Variable encodeURIComponent : string -> string.

(** The message of the [TypeError] raised by reading a property of
    [null]. *)
Variable null_read_message : string.

(** [thumbnail ? `/thumbnail/${encodeURIComponent(thumbnail)}` : '']. *)
Definition thumbnail_link (thumbnail : option string) : string :=
  match Js.truthy_prop thumbnail with
  | Some t => String.append "/thumbnail/" (encodeURIComponent t)
  | None => EmptyString
  end.

(** The object [/search] answers with (lines 94-102). *)
Definition search_track (metadata : info) (id : string) : track :=
  {| track_id := info_id metadata;
     track_title := Js.or_default (info_title metadata) "Unknown Track";
     track_thumbnail := thumbnail_link (best_thumbnail metadata);
     track_audioUrl := Some (String.append "/proxy/" id);
     track_duration := number_or_zero (info_duration metadata);
     track_channel :=
       Js.or_default (info_channel metadata)
         (Js.or_default (info_uploader metadata) "Unknown Artist");
     track_viewCount := Some (number_or_zero (info_view_count metadata)) |}.

(** The object [/play/:videoId] answers with (lines 184-191). *)
Definition play_track (metadata : info) (id : string) : track :=
  {| track_id := info_id metadata;
     track_title := Js.or_default (info_title metadata) "Unknown Track";
     track_thumbnail := thumbnail_link (best_thumbnail metadata);
     track_audioUrl := Some (String.append "/proxy/" id);
     track_duration := number_or_zero (info_duration metadata);
     track_channel :=
       Js.or_default (info_channel metadata)
         (Js.or_default (info_uploader metadata) "Unknown Artist");
     track_viewCount := None |}.

(** One element of [tracks] in [/search-list] (lines 133-145). *)
Definition list_track (entry : info) : track :=
  {| track_id := info_id entry;
     track_title := Js.or_default (info_title entry) "Unknown Track";
     track_thumbnail := thumbnail_link (last_thumbnail (info_thumbnails entry));
     track_audioUrl := None;
     track_duration := number_or_zero (info_duration entry);
     track_channel :=
       Js.or_default (info_channel entry)
         (Js.or_default (info_uploader entry) "Unknown Artist");
     track_viewCount := None |}.

(** [GET /search] (lines 41-111). [query] is [req.query.query];
    [metadata] is what [JSON.parse(await runYtDlp(...))] gave, [None]
    standing for [null]; [audio] is what the second [runYtDlp] gave. The
    second call is made only when the first gave an object. *)
Definition search_handler (query : option string)
    (metadata : awaited (option info)) (audio : awaited string)
    (t_id t_exp : Z) (rnd : string) (clock : nat -> Z)
    (urlCache : jsmap entry) : reply * jsmap entry :=
  match Js.truthy_prop query with
  | None => (ReplyError 400 "Query parameter is required" None, urlCache)
  | Some _ =>
      match metadata with
      | Rejected message =>
          (ReplyError 500 "Failed to fetch audio stream" (Some message), urlCache)
      | Resolved None =>
          (ReplyError 500 "Failed to fetch audio stream" (Some "No results found"),
           urlCache)
      | Resolved (Some parsed) =>
          match audio with
          | Rejected message =>
              (ReplyError 500 "Failed to fetch audio stream" (Some message),
               urlCache)
          | Resolved audioUrl =>
              if Js.truthy audioUrl then
                let registered :=
                  search_register audioUrl t_id t_exp rnd clock urlCache in
                (ReplyTrack (search_track parsed (fst registered)),
                 snd registered)
              else
                (ReplyError 500 "Failed to fetch audio stream"
                   (Some "Could not extract audio URL"),
                 urlCache)
          end
      end
  end.

(** [GET /play/:videoId] (lines 157-196). Both extractor calls and the
    registration come before the first read of a field of [metadata],
    which throws when [metadata] is [null]. *)
Definition play_handler (metadata : awaited (option info))
    (audio : awaited string) (t_id t_exp : Z) (rnd : string)
    (urlCache : jsmap entry) : reply * jsmap entry :=
  match metadata with
  | Rejected _ => (ReplyError 500 "Failed to get stream URL" None, urlCache)
  | Resolved parsed =>
      match audio with
      | Rejected _ => (ReplyError 500 "Failed to get stream URL" None, urlCache)
      | Resolved audioUrl =>
          let registered := play_register audioUrl t_id t_exp rnd urlCache in
          match parsed with
          | None =>
              (ReplyError 500 "Failed to get stream URL" None, snd registered)
          | Some m =>
              (ReplyTrack (play_track m (fst registered)), snd registered)
          end
      end
  end.


End Handlers.

(** ** The handler of [GET /thumbnail/:url] *)

Definition thumbnailAgent : string :=
  "Mozilla/5.0 (Windows NT 10.0; Win64; x64) AppleWebKit/537.36".

(** [res.setHeader(name, value)] with Node's refusal: once the head has
    gone out the call throws, given here as [None]. *)
Definition res_setHeader_checked (name value : string) (r : response)
    : option response :=
  if headersSent r then None else Some (res_setHeader name value r).

(** [res.send(text)]: the text is the body and the response is ended; the
    call sets headers first, so that it throws once the head has gone
    out. The headers Express adds on its own are left out of the model. *)
Definition res_send (text : string) (r : response) : option response :=
  if headersSent r then None
  else Some {| statusCode := statusCode r; res_headers := res_headers r;
               headersSent := true; res_body := res_body r ++ [text];
               res_ended := true |}.

Section ThumbnailHandler.

(** The built-in [decodeURIComponent]; [None] is the [URIError] it throws
    on a malformed escape. *)
Variable decodeURIComponent : string -> option string.

Variable get_accepts : protocol -> string -> bool.

(** The synchronous part of the handler (lines 199-221); [None] is an
    exception that leaves the handler: the decoding is outside the [try]. *)
Definition thumbnail_handler (params_url : string) : option proxy :=
  match decodeURIComponent params_url with
  | None => None
  | Some thumbnailUrl =>
      let protocol := protocol_of thumbnailUrl in
      if get_accepts protocol thumbnailUrl then
        Some {| res := fresh_response;
                proxyReq := Some
                  {| cr_protocol := protocol; cr_url := thumbnailUrl;
                     cr_headers := {[ "User-Agent" := thumbnailAgent ]};
                     cr_destroyed := false |};
                piped := false; upstream_read := [] |}
      else
        match res_send "Failed to fetch thumbnail" (res_status 500 fresh_response) with
        | Some r =>
            Some {| res := r; proxyReq := None; piped := false;
                    upstream_read := [] |}
        | None => None
        end
  end.

End ThumbnailHandler.

(** The response callback (lines 209-213); [None] is an exception thrown
    in the callback. The status of the upstream answer is not read. *)
Definition thumb_on_response (headers : gmap string string) (p : proxy)
    : option proxy :=
  match res_setHeader_checked "Content-Type"
          (Js.or_default (headers !! "content-type") "image/jpeg") (res p) with
  | None => None
  | Some r1 =>
      match res_setHeader_checked "Cache-Control" "public, max-age=86400" r1 with
      | None => None
      | Some r2 =>
          Some {| res := r2; proxyReq := proxyReq p; piped := true;
                  upstream_read := upstream_read p |}
      end
  end.

(** [proxyReq.on('error', ...)] (lines 215-217). *)
Definition thumb_on_error (p : proxy) : option proxy :=
  match res_send "Thumbnail not found" (res_status 404 (res p)) with
  | None => None
  | Some r =>
      Some {| res := r; proxyReq := proxyReq p; piped := piped p;
              upstream_read := upstream_read p |}
  end.

(** One turn of the event loop for a thumbnail exchange. No callback
    listens to the client's close. *)
Definition thumb_dispatch (p : proxy) (e : event) : option proxy :=
  match proxyReq p with
  | None => Some p
  | Some _ =>
      match e with
      | UpstreamResponse _ headers => thumb_on_response headers p
      | UpstreamData chunk => Some (pipe_data chunk p)
      | UpstreamEnd => Some (pipe_end p)
      | UpstreamError _ => thumb_on_error p
      | ClientClose => Some p
      end
  end.

Fixpoint thumb_run (p : proxy) (events : list event) : option proxy :=
  match events with
  | [] => Some p
  | e :: rest =>
      match thumb_dispatch p e with
      | Some p' => thumb_run p' rest
      | None => None
      end
  end.


(** Whether an event is a chunk of the upstream body. *)
Definition is_data (e : event) : bool :=
  match e with
  | UpstreamData _ => true
  | _ => false
  end.

(** Whether an entry is kept by a clean-up pass reading [now]. *)
Definition unexpired (now : Z) (binding : string * entry) : bool :=
  negb (expires (snd binding) <? now).

(** A line feed. *)
Definition LF : ascii := "010"%char.

(** Whether a text holds a given character. *)
Fixpoint has_char (c : ascii) (s : string) : bool :=
  match s with
  | EmptyString => false
  | String c' rest => (Ascii.eqb c' c || has_char c rest)%bool
  end.

(** Sample data for the handlers. *)
Definition sample_info : info :=
  {| info_id := Some "dQw4"; info_title := Some "Song"; info_thumbnail := None;
     info_thumbnails :=
       Some [ {| thumb_url := Some "https://i/1.jpg" |};
              {| thumb_url := Some "https://i/2.jpg" |} ];
     info_duration := Some 213; info_channel := None;
     info_uploader := Some "Artist"; info_view_count := Some 7 |}.

Definition two_entries : jsmap entry :=
  [("a", Entry "https://u/a" 1000); ("b", Entry "https://u/b" 9000)].

Definition identity_decode : string -> option string := Some.

(** * Properties *)

(** ** The map primitives *)

Section JsMapFacts.
Context {V : Type}.
Implicit Types (m : jsmap V) (k : string) (v : V).

Lemma Map_get_set_eq k v m : Map_get k (Map_set k v m) = Some v.
Proof.
  induction m as [|[k' v'] m IH]; simpl.
  - now rewrite String.eqb_refl.
  - destruct (String.eqb_spec k' k) as [->|Hne]; simpl.
    + now rewrite String.eqb_refl.
    + destruct (String.eqb_spec k' k); [contradiction | exact IH].
Qed.

Lemma Map_get_set_ne k k' v m :
  k <> k' -> Map_get k' (Map_set k v m) = Map_get k' m.
Proof.
  intros Hne. induction m as [|[k0 v0] m IH]; simpl.
  - destruct (String.eqb_spec k k'); [contradiction | reflexivity].
  - destruct (String.eqb_spec k0 k) as [->|Hk]; simpl.
    + destruct (String.eqb_spec k k'); [contradiction | reflexivity].
    + destruct (String.eqb_spec k0 k'); [reflexivity | exact IH].
Qed.

Lemma Map_get_delete_eq k m : Map_get k (Map_delete k m) = None.
Proof.
  induction m as [|[k' v'] m IH]; simpl; [reflexivity|].
  destruct (String.eqb_spec k' k) as [->|Hne]; simpl; [exact IH|].
  destruct (String.eqb_spec k' k); [contradiction | exact IH].
Qed.

Lemma Map_get_delete_ne k k' m :
  k <> k' -> Map_get k' (Map_delete k m) = Map_get k' m.
Proof.
  intros Hne. induction m as [|[k0 v0] m IH]; simpl; [reflexivity|].
  destruct (String.eqb_spec k0 k) as [->|Hk]; simpl.
  - destruct (String.eqb_spec k k'); [contradiction | exact IH].
  - destruct (String.eqb_spec k0 k'); [reflexivity | exact IH].
Qed.

(** Deleting never brings a key back. *)
Lemma Map_get_delete_None k k' m :
  Map_get k' m = None -> Map_get k' (Map_delete k m) = None.
Proof.
  intros H. destruct (string_dec k k') as [->|Hne].
  - apply Map_get_delete_eq.
  - now rewrite Map_get_delete_ne.
Qed.

Lemma In_Map_delete k k' v m :
  In (k', v) (Map_delete k m) -> In (k', v) m /\ k' <> k.
Proof.
  induction m as [|[k0 v0] m IH]; simpl; [tauto|].
  destruct (String.eqb_spec k0 k) as [->|Hk]; simpl.
  - intros H. destruct (IH H). tauto.
  - intros [Heq|H].
    + inversion Heq; subst. tauto.
    + destruct (IH H). tauto.
Qed.

(** A binding of the list makes its key defined. *)
Lemma In_Map_get k v m : In (k, v) m -> Map_get k m <> None.
Proof.
  induction m as [|[k0 v0] m IH]; simpl; [tauto|].
  intros [Heq|H].
  - inversion Heq; subst. now rewrite String.eqb_refl.
  - destruct (String.eqb k0 k); [discriminate | auto].
Qed.

Lemma Map_get_In k v m : Map_get k m = Some v -> In (k, v) m.
Proof.
  induction m as [|[k0 v0] m IH]; simpl; [discriminate|].
  destruct (String.eqb_spec k0 k) as [->|Hk].
  - intros [= ->]. now left.
  - intros H. right. auto.
Qed.

Lemma Map_get_None_keys k m : Map_get k m = None <-> ~ In k (map fst m).
Proof.
  induction m as [|[k0 v0] m IH]; simpl; [tauto|].
  destruct (String.eqb_spec k0 k) as [->|Hk].
  - split; [discriminate | tauto].
  - rewrite IH. tauto.
Qed.

(** With one binding per key, [get] returns the only value bound. *)
Lemma NoDup_In_Map_get k v m :
  List.NoDup (map fst m) -> In (k, v) m -> Map_get k m = Some v.
Proof.
  induction m as [|[k0 v0] m IH]; simpl; [tauto|].
  intros Hnd [Heq|H]; inversion Hnd as [|? ? Hnotin Hnd']; subst.
  - inversion Heq; subst. now rewrite String.eqb_refl.
  - destruct (String.eqb_spec k0 k) as [->|Hk]; [|auto].
    exfalso. apply Hnotin. change k with (fst (k, v)). now apply in_map.
Qed.

Lemma keys_Map_set k v m :
  forall k', In k' (map fst (Map_set k v m)) <-> k' = k \/ In k' (map fst m).
Proof.
  intros k'. induction m as [|[k0 v0] m IH]; simpl.
  - intuition congruence.
  - destruct (String.eqb_spec k0 k) as [->|Hk]; simpl.
    + intuition congruence.
    + rewrite IH. intuition congruence.
Qed.

Lemma NoDup_Map_set k v m : List.NoDup (map fst m) -> List.NoDup (map fst (Map_set k v m)).
Proof.
  induction m as [|[k0 v0] m IH]; simpl; intros Hnd.
  - constructor; [simpl; tauto | constructor].
  - inversion Hnd as [|? ? Hnotin Hnd']; subst.
    destruct (String.eqb_spec k0 k) as [->|Hk]; simpl.
    + now constructor.
    + constructor; [|auto]. rewrite keys_Map_set. intuition congruence.
Qed.

Lemma NoDup_Map_delete k m : List.NoDup (map fst m) -> List.NoDup (map fst (Map_delete k m)).
Proof.
  induction m as [|[k0 v0] m IH]; simpl; intros Hnd; [constructor|].
  inversion Hnd as [|? ? Hnotin Hnd']; subst.
  destruct (String.eqb_spec k0 k) as [->|Hk]; simpl; [auto|].
  constructor; [|auto].
  intros Hin. apply Hnotin. apply in_map_iff in Hin as [[k1 v1] [Hfst Hin]].
  simpl in Hfst; subst. apply In_Map_delete in Hin as [Hin _].
  change k0 with (fst (k0, v1)). now apply in_map.
Qed.

End JsMapFacts.

(** ** The clean-up loop *)

(** The loop only deletes: an absent id stays absent. *)
Lemma sweep_from_get_None clock id : forall todo i m,
  Map_get id m = None -> Map_get id (sweep_from clock i todo m) = None.
Proof.
  induction todo as [|[key value] rest IH]; simpl; intros i m H; [exact H|].
  apply IH. destruct (expires value <? clock i); [|exact H].
  now apply Map_get_delete_None.
Qed.

(** Every binding left by the loop was there before. *)
Lemma sweep_from_incl clock : forall todo i m x,
  In x (sweep_from clock i todo m) -> In x m.
Proof.
  induction todo as [|[key value] rest IH]; simpl; intros i m x H; [exact H|].
  apply IH in H. destruct (expires value <? clock i); [|exact H].
  destruct x as [k v]. now apply In_Map_delete in H as [H _].
Qed.

(** A visited binding whose [expires] is below the reading taken at its
    visit is deleted, and its key with it. *)
Lemma sweep_from_deletes clock id e : forall todo i m j,
  nth_error todo j = Some (id, e) ->
  expires e < clock (i + j)%nat ->
  Map_get id (sweep_from clock i todo m) = None.
Proof.
  induction todo as [|[key value] rest IH]; intros i m j Hnth Hexp.
  - destruct j; discriminate.
  - destruct j as [|j]; simpl in *.
    + injection Hnth as -> ->. rewrite Nat.add_0_r in Hexp.
      apply sweep_from_get_None.
      destruct (Z.ltb_spec (expires e) (clock i)); [|lia].
      apply Map_get_delete_eq.
    + apply (IH (S i) _ j Hnth). now rewrite <- Nat.add_succ_comm in Hexp.
Qed.

(** A key whose visited bindings are all unexpired at their visit is
    left alone. *)
Lemma sweep_from_keeps clock id : forall todo i m,
  (forall j e, nth_error todo j = Some (id, e) -> clock (i + j)%nat <= expires e) ->
  Map_get id (sweep_from clock i todo m) = Map_get id m.
Proof.
  induction todo as [|[key value] rest IH]; simpl; intros i m H; [reflexivity|].
  rewrite IH.
  - destruct (Z.ltb_spec (expires value) (clock i)) as [Hlt|]; [|reflexivity].
    destruct (string_dec key id) as [->|Hne].
    + specialize (H 0%nat value eq_refl). rewrite Nat.add_0_r in H. lia.
    + now apply Map_get_delete_ne.
  - intros j e Hnth. rewrite Nat.add_succ_comm. now apply (H (S j)).
Qed.

(** What the loop removes: an entry whose [expires] is below every
    reading of the pass is gone afterwards. *)
Lemma sweep_evicts clock id e urlCache :
  Map_get id urlCache = Some e ->
  (forall i, expires e < clock i) ->
  Map_get id (sweep clock urlCache) = None.
Proof.
  intros Hget Hexp. apply Map_get_In, In_nth_error in Hget as [j Hj].
  unfold sweep. eapply sweep_from_deletes; [exact Hj | apply Hexp].
Qed.

(** What the loop leaves: every remaining binding was unexpired at the
    reading taken when it was visited. *)
Lemma sweep_sound clock urlCache id e :
  In (id, e) (sweep clock urlCache) ->
  exists j, nth_error urlCache j = Some (id, e) /\ clock j <= expires e.
Proof.
  intros Hin. pose proof (sweep_from_incl _ _ _ _ _ Hin) as Hold.
  apply In_nth_error in Hold as [j Hj]. exists j. split; [exact Hj|].
  destruct (Z.le_gt_cases (clock j) (expires e)) as [|Hlt]; [assumption|].
  exfalso. apply (In_Map_get _ _ _ Hin).
  unfold sweep. eapply sweep_from_deletes; [exact Hj | simpl; lia].
Qed.

(** With a clock that never reads below [t0], nothing that expired
    before [t0] survives the pass. *)
Lemma sweep_leaves_no_expired clock t0 urlCache id e :
  (forall i, t0 <= clock i) ->
  In (id, e) (sweep clock urlCache) -> t0 <= expires e.
Proof.
  intros Hclock Hin. apply sweep_sound in Hin as [j [_ Hj]].
  specialize (Hclock j). lia.
Qed.

(** An entry unexpired at every reading of the pass stays. *)
Lemma sweep_keeps clock id e urlCache :
  List.NoDup (map fst urlCache) ->
  Map_get id urlCache = Some e ->
  (forall i, clock i <= expires e) ->
  Map_get id (sweep clock urlCache) = Some e.
Proof.
  intros Hnd Hget Hexp. unfold sweep. rewrite sweep_from_keeps; [exact Hget|].
  intros j e' Hnth. apply nth_error_In in Hnth.
  apply (NoDup_In_Map_get _ _ _ Hnd) in Hnth.
  rewrite Hget in Hnth. injection Hnth as <-. apply Hexp.
Qed.

Lemma NoDup_sweep_from clock : forall todo i m,
  List.NoDup (map fst m) -> List.NoDup (map fst (sweep_from clock i todo m)).
Proof.
  induction todo as [|[key value] rest IH]; simpl; intros i m H; [exact H|].
  apply IH. destruct (expires value <? clock i); [|exact H].
  now apply NoDup_Map_delete.
Qed.

(** ** Base-36 text of the clock reading *)

Lemma digit36_inj a b :
  0 <= a < 36 -> 0 <= b < 36 -> Js.digit36 a = Js.digit36 b -> a = b.
Proof.
  intros Ha Hb H. unfold Js.digit36 in H.
  destruct (Z.ltb_spec a 10), (Z.ltb_spec b 10);
    apply (f_equal nat_of_ascii) in H;
    rewrite !nat_ascii_embedding in H by lia; lia.
Qed.

(** Two numbers with the same quotient and the same last digit. *)
Lemma last_digit_inj n1 n2 :
  0 <= n1 -> 0 <= n2 -> n1 / 36 = n2 / 36 ->
  Js.digit36 (n1 mod 36) = Js.digit36 (n2 mod 36) -> n1 = n2.
Proof.
  intros H1 H2 Hq Hd.
  apply digit36_inj in Hd; try (apply Z.mod_pos_bound; lia).
  rewrite (Z.div_mod n1 36), (Z.div_mod n2 36) by lia. congruence.
Qed.

Lemma digits36_longer : forall fuel n acc,
  (String.length acc < String.length (Js.digits36 fuel n acc))%nat.
Proof.
  induction fuel as [|fuel IH]; intros n acc; simpl; [lia|].
  destruct (n / 36 =? 0); simpl; [lia|].
  specialize (IH (n / 36) (String (Js.digit36 (n mod 36)) acc)).
  simpl in IH. lia.
Qed.

Lemma pow36_succ (k : nat) : 36 ^ Z.of_nat (S k) = 36 * 36 ^ Z.of_nat k.
Proof. rewrite Nat2Z.inj_succ. apply Z.pow_succ_r. lia. Qed.

Lemma div36_bound n (k : nat) :
  0 <= n < 36 ^ Z.of_nat (S (S k)) -> 0 <= n / 36 < 36 ^ Z.of_nat (S k).
Proof.
  intros [H0 H1]. split; [apply Z.div_pos; lia|].
  apply Z.div_lt_upper_bound; [lia|]. now rewrite <- pow36_succ.
Qed.

Lemma div36_zero n : 0 <= n -> n / 36 = 0 -> n < 36.
Proof. intros H0 Hq. pose proof (Z.div_mod n 36). pose proof (Z.mod_pos_bound n 36). lia. Qed.

(** With enough fuel on both sides, equal digit texts in front of
    equally long suffixes come from equal numbers. *)
Lemma digits36_inj : forall f1 f2 n1 n2 acc1 acc2,
  0 <= n1 < 36 ^ Z.of_nat (S f1) ->
  0 <= n2 < 36 ^ Z.of_nat (S f2) ->
  String.length acc1 = String.length acc2 ->
  Js.digits36 f1 n1 acc1 = Js.digits36 f2 n2 acc2 ->
  n1 = n2 /\ acc1 = acc2.
Proof.
  assert (Hbase : forall n1 n2 acc1 acc2, 0 <= n1 < 36 -> 0 <= n2 < 36 ->
            String (Js.digit36 (n1 mod 36)) acc1 = String (Js.digit36 (n2 mod 36)) acc2 ->
            n1 = n2 /\ acc1 = acc2).
  { intros n1 n2 acc1 acc2 H1 H2 [= Hd ->]. split; [|reflexivity].
    apply last_digit_inj; [lia | lia | now rewrite !Z.div_small by lia | exact Hd]. }
  assert (Hlen : forall f n d a acc a', String.length acc = String.length a' ->
            String d acc = Js.digits36 f n (String a a') -> False).
  { intros f n d a acc a' Hl Heq. apply (f_equal String.length) in Heq.
    pose proof (digits36_longer f n (String a a')) as Hlt. simpl in *. lia. }
  induction f1 as [|f1 IH]; intros [|f2] n1 n2 acc1 acc2 H1 H2 Hl; simpl.
  - apply Hbase; simpl in *; lia.
  - destruct (Z.eqb_spec (n2 / 36) 0) as [Hq|Hq].
    + apply Hbase; [simpl in H1; lia | split; [lia | apply div36_zero; lia]].
    + intros Heq. exfalso. eapply Hlen; [exact Hl | exact Heq].
  - destruct (Z.eqb_spec (n1 / 36) 0) as [Hq|Hq].
    + apply Hbase; [split; [lia | apply div36_zero; lia] | simpl in H2; lia].
    + intros Heq. exfalso. symmetry in Heq, Hl. eapply Hlen; [exact Hl | exact Heq].
  - destruct (Z.eqb_spec (n1 / 36) 0) as [Hq1|Hq1],
             (Z.eqb_spec (n2 / 36) 0) as [Hq2|Hq2].
    + apply Hbase; split; try lia; apply div36_zero; lia.
    + intros Heq. exfalso. eapply Hlen; [exact Hl | exact Heq].
    + intros Heq. exfalso. symmetry in Heq, Hl. eapply Hlen; [exact Hl | exact Heq].
    + intros Heq.
      apply IH in Heq; [| now apply div36_bound | now apply div36_bound | simpl; lia].
      destruct Heq as [Hq [= Hd ->]]. split; [|reflexivity].
      apply last_digit_inj; lia || assumption.
Qed.

(** Fuel beyond the number of digits changes nothing. *)
Lemma digits36_fuel_enough : forall f f' n acc,
  0 <= n < 36 ^ Z.of_nat (S f) -> (f <= f')%nat ->
  Js.digits36 f' n acc = Js.digits36 f n acc.
Proof.
  induction f as [|f IH]; intros [|f'] n acc Hn Hf; try lia; simpl.
  - reflexivity.
  - rewrite Z.div_small by (simpl in Hn; lia). reflexivity.
  - destruct (Z.eqb_spec (n / 36) 0); [reflexivity|].
    apply IH; [now apply div36_bound | lia].
Qed.

(** The fuel [toString36] gives itself is enough. *)
Lemma log2_fuel n : 0 <= n -> 0 <= n < 36 ^ Z.of_nat (S (Z.to_nat (Z.log2 n))).
Proof.
  intros H0. split; [exact H0|].
  destruct (Z.eq_dec n 0) as [->|Hn]; [reflexivity|].
  pose proof (Z.log2_nonneg n) as Hl.
  rewrite Nat2Z.inj_succ, Z2Nat.id by exact Hl.
  destruct (Z.log2_spec n) as [_ Hlt]; [lia|].
  eapply Z.lt_le_trans; [exact Hlt|].
  apply Z.pow_le_mono_l. lia.
Qed.

Lemma toString36_inj n1 n2 :
  0 <= n1 -> 0 <= n2 -> Js.toString36 n1 = Js.toString36 n2 -> n1 = n2.
Proof.
  intros H1 H2. unfold Js.toString36.
  destruct (Z.ltb_spec n1 0), (Z.ltb_spec n2 0); try lia.
  intros Heq. apply digits36_inj in Heq; [tauto | | | reflexivity];
    now apply log2_fuel.
Qed.

(** A number of [k + 1] base-36 digits gives a text of [k + 1] characters. *)
Lemma digits36_length : forall (k fuel : nat) n acc,
  (k <= fuel)%nat ->
  36 ^ Z.of_nat k <= n < 36 ^ Z.of_nat (S k) ->
  String.length (Js.digits36 fuel n acc) = (String.length acc + S k)%nat.
Proof.
  induction k as [|k IH]; intros fuel n acc Hk Hn.
  - change (36 ^ Z.of_nat 0) with 1 in Hn. change (36 ^ Z.of_nat 1) with 36 in Hn.
    destruct fuel; simpl; [lia|].
    rewrite Z.div_small by lia. simpl. lia.
  - destruct fuel as [|fuel]; [lia|]. simpl.
    assert (Hq : 36 ^ Z.of_nat k <= n / 36 < 36 ^ Z.of_nat (S k)).
    { pose proof (pow36_succ (S k)). pose proof (pow36_succ k). split.
      - apply Z.div_le_lower_bound; lia.
      - apply Z.div_lt_upper_bound; lia. }
    assert (0 < 36 ^ Z.of_nat k) by (apply Z.pow_pos_nonneg; lia).
    destruct (Z.eqb_spec (n / 36) 0); [lia|].
    rewrite IH; [simpl; lia | lia | exact Hq].
Qed.

(** Clock readings from [36^7] ms (June 1972) up to [36^8] ms (May 2059)
    print as eight base-36 digits. *)
Lemma toString36_length8 t :
  36 ^ 7 <= t < 36 ^ 8 -> String.length (Js.toString36 t) = 8%nat.
Proof.
  intros Ht. unfold Js.toString36.
  destruct (Z.ltb_spec t 0); [lia|].
  apply (digits36_length 7); [|exact Ht].
  assert (Z.log2 (36 ^ 7) <= Z.log2 t) by (apply Z.log2_le_mono; lia).
  assert (Z.log2 (36 ^ 7) = 36) by (vm_compute; reflexivity). lia.
Qed.

Lemma append_inj_length : forall a1 a2 b1 b2 : string,
  String.length a1 = String.length a2 ->
  String.append a1 b1 = String.append a2 b2 -> a1 = a2 /\ b1 = b2.
Proof.
  induction a1 as [|c1 a1 IH]; intros [|c2 a2] b1 b2 Hl; simpl in *;
    try discriminate.
  - tauto.
  - intros [= -> Heq]. destruct (IH a2 b1 b2) as [-> ->]; [lia | exact Heq | tauto].
Qed.

(** ** The registry *)

Lemma NoDup_register ttl id u now urlCache :
  List.NoDup (map fst urlCache) ->
  List.NoDup (map fst (register_with ttl id u now urlCache)).
Proof. apply NoDup_Map_set. Qed.

Lemma NoDup_apply_op urlCache o :
  List.NoDup (map fst urlCache) -> List.NoDup (map fst (apply_op urlCache o)).
Proof.
  intros H. destruct o; simpl.
  - apply NoDup_sweep_from. now apply NoDup_register.
  - now apply NoDup_register.
Qed.

(** Every cache the handlers can build binds a key once. *)
Lemma NoDup_run_ops ops : List.NoDup (map fst (run_ops ops)).
Proof.
  unfold run_ops. assert (H : List.NoDup (map fst (@nil (string * entry)))) by constructor.
  revert H. generalize (@nil (string * entry)).
  induction ops as [|o ops IH]; intros c H; simpl; [exact H|].
  apply IH. now apply NoDup_apply_op.
Qed.

Lemma apply_op_absent urlCache o id :
  op_id o <> id -> Map_get id urlCache = None ->
  Map_get id (apply_op urlCache o) = None.
Proof.
  intros Hne H. destruct o; simpl in *.
  - apply sweep_from_get_None. unfold register, register_with.
    now rewrite Map_get_set_ne.
  - unfold register, register_with. now rewrite Map_get_set_ne.
Qed.

(** An id that no registration produced is bound in no reachable cache. *)
Lemma run_ops_never_registered ops id :
  ~ In id (map op_id ops) -> Map_get id (run_ops ops) = None.
Proof.
  unfold run_ops.
  assert (H : Map_get id (@nil (string * entry)) = None) by reflexivity.
  revert H. generalize (@nil (string * entry)).
  induction ops as [|o ops IH]; intros c H Hnot; simpl in *; [exact H|].
  apply IH; [|tauto]. apply apply_op_absent; [tauto | exact H].
Qed.

(** The [/play] block resolves to the first line of the extractor's output. *)
Lemma resolve_play_register audioUrl t_id t_exp rnd urlCache :
  resolve (fst (play_register audioUrl t_id t_exp rnd urlCache))
          (snd (play_register audioUrl t_id t_exp rnd urlCache))
  = Some (Js.first_line audioUrl).
Proof.
  unfold resolve, play_register, register, register_with. simpl.
  now rewrite Map_get_set_eq.
Qed.

(** So does the [/search] block, as long as its clean-up pass ends
    within the hour. *)
Lemma resolve_search_register audioUrl t_id t_exp rnd clock urlCache :
  List.NoDup (map fst urlCache) ->
  (forall i, clock i <= t_exp + TTL) ->
  resolve (fst (search_register audioUrl t_id t_exp rnd clock urlCache))
          (snd (search_register audioUrl t_id t_exp rnd clock urlCache))
  = Some (Js.first_line audioUrl).
Proof.
  intros Hnd Hclock. unfold resolve, search_register. simpl.
  rewrite (sweep_keeps clock (streamId t_id rnd)
             {| url := Js.first_line audioUrl; expires := t_exp + TTL |});
    [reflexivity | | |].
  - now apply NoDup_register.
  - unfold register, register_with. apply Map_get_set_eq.
  - exact Hclock.
Qed.

(** X24. The registration block of [/play] leaves every other id bound
    to what it was, whatever its [expires]. *)
Lemma play_register_keeps audioUrl t_id t_exp rnd urlCache id :
  id <> streamId t_id rnd ->
  Map_get id (snd (play_register audioUrl t_id t_exp rnd urlCache))
  = Map_get id urlCache.
Proof.
  intros Hne. unfold play_register, register, register_with. simpl.
  apply Map_get_set_ne. congruence.
Qed.



(** C1, as amended. For every stream id bound in the registry the proxy
    lookup returns the stored URL whatever the time: the lookup does not
    read [expires]. The lookup finds nothing once a clean-up pass of
    [/search] whose clock readings are all above the entry's [expires]
    has run, because that pass deletes the binding. *)
Theorem resolve_ignores_expiry urlCache id e clock :
  Map_get id urlCache = Some e ->
  resolve id urlCache = Some (url e) /\
  ((forall i, expires e < clock i) -> resolve id (sweep clock urlCache) = None).
Proof.
  intros Hget. split.
  - unfold resolve. now rewrite Hget.
  - intros Hexp. unfold resolve. now rewrite (sweep_evicts clock id e).
Qed.

Lemma resolve_ignores_expiry_witness :
  resolve "k" [("k", Entry "https://u/a" 1000)] = Some "https://u/a" /\
  resolve "k" (sweep (fun _ => 5000) [("k", Entry "https://u/a" 1000)]) = None.
Proof.
  destruct (resolve_ignores_expiry [("k", Entry "https://u/a" 1000)] "k"
              (Entry "https://u/a" 1000) (fun _ => 5000) eq_refl) as [H1 H2].
  split; [exact H1 | apply H2; intros i; simpl; lia].
Defined.

(** C1, as stated, fails: an entry registered at time 0 is past its
    [expires] two hours later, and the lookup still returns its URL as
    long as no clean-up pass has run. *)
Lemma resolve_serves_expired_entry :
  ~ (forall (urlCache : jsmap entry) (id : string) (e : entry) (now : Z),
       Map_get id urlCache = Some e -> expires e <= now ->
       resolve id urlCache = None).
Proof.
  intros H.
  assert (E : resolve "k" (register "k" "https://u/a" 0 []) = None).
  { apply (H _ "k" (Entry "https://u/a" 3600000) 7200000); [reflexivity|].
    simpl. lia. }
  vm_compute in E. discriminate E.
Qed.

(** C2. Resolving the id just registered returns exactly the URL that was
    registered, for every URL and every time-to-live; in particular the
    id returned by the registration block of [/play] resolves to the URL
    it stored. *)
Theorem resolve_register ttl id u now urlCache audioUrl t_id t_exp rnd :
  resolve id (register_with ttl id u now urlCache) = Some u /\
  resolve id (register id u now urlCache) = Some u /\
  resolve (fst (play_register audioUrl t_id t_exp rnd urlCache))
          (snd (play_register audioUrl t_id t_exp rnd urlCache))
  = Some (Js.first_line audioUrl).
Proof.
  unfold resolve, register, register_with. rewrite !Map_get_set_eq.
  repeat split. apply resolve_play_register.
Qed.

(** C7, at the failing input. The registration block of [/play] leaves an
    entry that expired long ago in the map, where the block of [/search]
    run on the same cache at the same time removes it. *)
Theorem play_register_leaves_expired_entry :
  let urlCache := [("old", Entry "https://u/a" 1000)] in
  let now := 1700000000000 in
  1000 < now /\
  Map_get "old" (snd (play_register "https://u/b" now now "0.4fzyo82mvyr" urlCache))
    = Some (Entry "https://u/a" 1000) /\
  Map_get "old" (snd (search_register "https://u/b" now now "0.4fzyo82mvyr"
                        (fun _ => now) urlCache))
    = None.
Proof. vm_compute. repeat split; reflexivity. Qed.

(** The id is the clock text followed by the random slice. *)
Lemma streamId_inj t1 r1 t2 r2 :
  36 ^ 7 <= t1 < 36 ^ 8 -> 36 ^ 7 <= t2 < 36 ^ 8 ->
  streamId t1 r1 = streamId t2 r2 ->
  t1 = t2 /\ Js.substring r1 2 8 = Js.substring r2 2 8.
Proof.
  intros H1 H2 Heq. unfold streamId in Heq.
  apply append_inj_length in Heq as [Ht Hr].
  - split; [|exact Hr]. apply toString36_inj; [lia | lia | exact Ht].
  - now rewrite !toString36_length8.
Qed.

(** C8, as amended. Two registrations whose clock readings both print as
    eight base-36 digits (any date from June 1972 to May 2059) get the
    same stream id exactly when they read the same millisecond and draw
    the same random slice; they get distinct ids whenever the readings
    differ or the slices differ. *)
Theorem streamId_distinct t1 r1 t2 r2 :
  36 ^ 7 <= t1 < 36 ^ 8 -> 36 ^ 7 <= t2 < 36 ^ 8 ->
  (streamId t1 r1 = streamId t2 r2 <->
   t1 = t2 /\ Js.substring r1 2 8 = Js.substring r2 2 8).
Proof.
  intros H1 H2. split.
  - now apply streamId_inj.
  - intros [-> Hr]. unfold streamId. now rewrite Hr.
Qed.

Lemma streamId_distinct_witness :
  streamId 1700000000000 "0.4fzyo82mvyr" = streamId 1700000000001 "0.4fzyo82mvyr" <->
  1700000000000 = 1700000000001 /\
  Js.substring "0.4fzyo82mvyr" 2 8 = Js.substring "0.4fzyo82mvyr" 2 8.
Proof.
  apply streamId_distinct; split;
    solve [apply Z.leb_le; reflexivity | apply Z.ltb_lt; reflexivity].
Defined.

(** C8, as stated, fails: two registrations in the same millisecond with
    the same random draw, or with draws that agree on the six characters
    kept, return the same id, and the second overwrites the first. *)
Lemma same_reading_same_slice_same_id :
  let first := play_register "https://u/a" 1700000000000 1700000000000
                 "0.4fzyo82mvyr" [] in
  let second := play_register "https://u/b" 1700000000000 1700000000000
                  "0.4fzyo8zzzzz" (snd first) in
  fst first = fst second /\
  Map_size (snd second) = 1%nat /\
  resolve (fst first) (snd second) = Some "https://u/b".
Proof. vm_compute. repeat split; reflexivity. Qed.

(** ** The response head *)

Lemma getHeader_setHeader_eq a b v r :
  toLowerCase a = toLowerCase b -> res_getHeader a (res_setHeader b v r) = Some v.
Proof.
  intros E. unfold res_getHeader, res_setHeader. simpl. rewrite E.
  apply lookup_insert_eq.
Qed.

Lemma getHeader_setHeader_ne a b v r :
  toLowerCase a <> toLowerCase b ->
  res_getHeader a (res_setHeader b v r) = res_getHeader a r.
Proof.
  intros E. unfold res_getHeader, res_setHeader. simpl.
  apply lookup_insert_ne. congruence.
Qed.

Lemma statusCode_forward_header Name name headers r :
  statusCode (forward_header Name name headers r) = statusCode r.
Proof. unfold forward_header. now destruct (Js.truthy_prop _). Qed.

Lemma getHeader_forward_eq a Name name headers r :
  toLowerCase a = toLowerCase Name ->
  res_getHeader a (forward_header Name name headers r)
  = match Js.truthy_prop (headers !! name) with
    | Some v => Some v
    | None => res_getHeader a r
    end.
Proof.
  intros E. unfold forward_header.
  destruct (Js.truthy_prop _); [now apply getHeader_setHeader_eq | reflexivity].
Qed.

Lemma getHeader_forward_ne a Name name headers r :
  toLowerCase a <> toLowerCase Name ->
  res_getHeader a (forward_header Name name headers r) = res_getHeader a r.
Proof.
  intros E. unfold forward_header.
  destruct (Js.truthy_prop _); [now apply getHeader_setHeader_ne | reflexivity].
Qed.

Lemma truthy_prop_Some o v :
  o = Some v -> v <> EmptyString -> Js.truthy_prop o = Some v.
Proof. intros -> Hv. destruct v; [contradiction | reflexivity]. Qed.

Lemma truthy_prop_None o :
  o = None \/ o = Some EmptyString -> Js.truthy_prop o = None.
Proof. now intros [-> | ->]. Qed.

(** Two header names written out are told apart by evaluation. *)
Ltac names_differ :=
  let E := fresh "E" in intros E; vm_compute in E; discriminate E.

Ltac read_header :=
  repeat first
    [ rewrite getHeader_forward_eq by reflexivity
    | rewrite getHeader_forward_ne by names_differ
    | rewrite getHeader_setHeader_eq by reflexivity
    | rewrite getHeader_setHeader_ne by names_differ ].

Section ProxyFacts.
Variable get_accepts : protocol -> string -> bool.

(** When the handler made an outbound request, the id was bound, the
    request is the one written at lines 245-249 and the response so far
    carries the three headers of lines 237-239. *)
Lemma proxy_handler_request urlCache req cr :
  proxyReq (proxy_handler get_accepts urlCache req) = Some cr ->
  exists cached,
    Map_get (params_streamId req) urlCache = Some cached /\
    cr = {| cr_protocol := protocol_of (url cached); cr_url := url cached;
            cr_headers := get_headers req; cr_destroyed := false |} /\
    proxy_handler get_accepts urlCache req
    = {| res := audio_head fresh_response; proxyReq := Some cr;
         piped := false; upstream_read := [] |}.
Proof.
  unfold proxy_handler.
  destruct (Map_get (params_streamId req) urlCache) as [cached|]; [|discriminate].
  simpl. destruct (get_accepts _ _); [|discriminate].
  simpl. intros [= <-]. exists cached. auto.
Qed.

(** The handler does make the request when the id is bound and
    [protocol.get] takes the URL. *)
Lemma proxy_handler_opens urlCache req cached :
  Map_get (params_streamId req) urlCache = Some cached ->
  get_accepts (protocol_of (url cached)) (url cached) = true ->
  proxyReq (proxy_handler get_accepts urlCache req)
  = Some {| cr_protocol := protocol_of (url cached); cr_url := url cached;
            cr_headers := get_headers req; cr_destroyed := false |}.
Proof. intros Hget Hacc. unfold proxy_handler. now rewrite Hget, Hacc. Qed.

(** An id bound to nothing gets the 404 answer and no outbound request. *)
Lemma proxy_handler_absent urlCache req :
  Map_get (params_streamId req) urlCache = None ->
  proxy_handler get_accepts urlCache req = not_found.
Proof. intros H. unfold proxy_handler. now rewrite H. Qed.

(** C3, as amended. For every id that no registration produced,
    [GET /proxy/id] answers 404 with exactly the body
    [{"error":"Stream not found or expired"}] and makes no outbound
    request; the exchange is the same, field for field, as the one for
    an id whose entry expired and was removed by a clean-up pass. *)
Theorem proxy_never_registered ops req :
  ~ In (params_streamId req) (map op_id ops) ->
  proxy_handler get_accepts (run_ops ops) req = not_found /\
  (forall urlCache e clock,
     Map_get (params_streamId req) urlCache = Some e ->
     (forall i, expires e < clock i) ->
     proxy_handler get_accepts (sweep clock urlCache) req
     = proxy_handler get_accepts (run_ops ops) req).
Proof.
  intros Hnever.
  assert (H : proxy_handler get_accepts (run_ops ops) req = not_found).
  { apply proxy_handler_absent. now apply run_ops_never_registered. }
  split; [exact H|]. intros urlCache e clock Hget Hexp. rewrite H.
  apply proxy_handler_absent. now apply (sweep_evicts clock _ e).
Qed.

(** C5, as amended. The outbound request goes to the resolved URL with
    the fixed browser User-Agent; its Range header is the client's Range
    value when the client sent a non-empty one, and [bytes=0-] when the
    client sent none or an empty one. *)
Theorem upstream_request_headers urlCache req cr :
  proxyReq (proxy_handler get_accepts urlCache req) = Some cr ->
  resolve (params_streamId req) urlCache = Some (cr_url cr) /\
  cr_headers cr !! "User-Agent" = Some userAgent /\
  (forall v, req_headers req !! "range" = Some v -> v <> EmptyString ->
             cr_headers cr !! "Range" = Some v) /\
  (req_headers req !! "range" = None \/
   req_headers req !! "range" = Some EmptyString ->
   cr_headers cr !! "Range" = Some "bytes=0-").
Proof.
  intros H. apply proxy_handler_request in H as (cached & Hget & -> & _).
  simpl. unfold resolve, get_headers. rewrite Hget.
  split; [reflexivity|]. split; [|split].
  - rewrite lookup_insert_ne by discriminate. apply lookup_insert_eq.
  - intros v Hv Hne. rewrite lookup_insert_eq. unfold Js.or_default.
    now rewrite (truthy_prop_Some _ v).
  - intros Hv. rewrite lookup_insert_eq. unfold Js.or_default.
    now rewrite truthy_prop_None.
Qed.

(** C4, as amended. After the upstream answered, the outer response has
    the upstream's status code; it carries the upstream's Content-Type,
    Content-Length and Content-Range values unchanged whenever the
    upstream sent them non-empty; an absent or empty one leaves
    Content-Type at [audio/webm] and the other two unset; and it carries
    [Accept-Ranges: bytes] and [Cache-Control: no-cache]. *)
Theorem response_mirrors_upstream urlCache req cr code headers :
  proxyReq (proxy_handler get_accepts urlCache req) = Some cr ->
  let r := res (dispatch (proxy_handler get_accepts urlCache req)
                  (UpstreamResponse code headers)) in
  statusCode r = code /\
  (forall v, headers !! "content-type" = Some v -> v <> EmptyString ->
             res_getHeader "Content-Type" r = Some v) /\
  (forall v, headers !! "content-length" = Some v -> v <> EmptyString ->
             res_getHeader "Content-Length" r = Some v) /\
  (forall v, headers !! "content-range" = Some v -> v <> EmptyString ->
             res_getHeader "Content-Range" r = Some v) /\
  (headers !! "content-type" = None \/ headers !! "content-type" = Some EmptyString ->
   res_getHeader "Content-Type" r = Some "audio/webm") /\
  (headers !! "content-length" = None \/ headers !! "content-length" = Some EmptyString ->
   res_getHeader "Content-Length" r = None) /\
  (headers !! "content-range" = None \/ headers !! "content-range" = Some EmptyString ->
   res_getHeader "Content-Range" r = None) /\
  res_getHeader "Accept-Ranges" r = Some "bytes" /\
  res_getHeader "Cache-Control" r = Some "no-cache".
Proof.
  intros H. apply proxy_handler_request in H as (cached & Hget & -> & ->).
  unfold dispatch, on_response, audio_head. simpl.
  repeat split.
  - now rewrite !statusCode_forward_header.
  - intros v Hv Hne. read_header. now rewrite (truthy_prop_Some _ v).
  - intros v Hv Hne. read_header. now rewrite (truthy_prop_Some _ v).
  - intros v Hv Hne. read_header. now rewrite (truthy_prop_Some _ v).
  - intros Hv. read_header. now rewrite truthy_prop_None.
  - intros Hv. read_header. now rewrite truthy_prop_None.
  - intros Hv. read_header. now rewrite truthy_prop_None.
  - now read_header.
  - now read_header.
Qed.

(** C10. When the upstream answer has no Content-Type header, the outer
    response carries [Content-Type: audio/webm], the value set before
    the upstream was contacted. *)
Theorem default_content_type urlCache req cr code headers :
  proxyReq (proxy_handler get_accepts urlCache req) = Some cr ->
  headers !! "content-type" = None ->
  res_getHeader "Content-Type"
    (res (dispatch (proxy_handler get_accepts urlCache req)
            (UpstreamResponse code headers)))
  = Some "audio/webm".
Proof.
  intros H Hct. apply proxy_handler_request in H as (cached & Hget & -> & ->).
  unfold dispatch, on_response, audio_head. simpl.
  read_header. unfold Js.truthy_prop. now rewrite Hct.
Qed.

End ProxyFacts.

Lemma proxy_never_registered_witness :
  ~ In "k" (map op_id one_play) /\
  proxy_handler any_url (run_ops one_play) (plain_request "k") = not_found /\
  proxy_handler any_url (sweep (fun _ => 5000) stale_cache) (plain_request "k")
  = proxy_handler any_url (run_ops one_play) (plain_request "k").
Proof.
  assert (Hnever : ~ In (params_streamId (plain_request "k")) (map op_id one_play)).
  { vm_compute. intros [E|[]]. discriminate E. }
  destruct (proxy_never_registered any_url one_play (plain_request "k") Hnever)
    as [H1 H2].
  split; [exact Hnever|]. split; [exact H1|].
  apply (H2 stale_cache (Entry "https://u/a" 1000) (fun _ => 5000) eq_refl).
  intros i. simpl. lia.
Defined.

(** C3, as stated, fails on its second half: an id whose entry is past
    its [expires] and still in the map is proxied, so that its answer
    differs from the 404 given to an id never registered. *)
Lemma expired_id_distinguishable :
  ~ (forall (get_accepts : protocol -> string -> bool) (urlCache : jsmap entry)
            (expired never : request) (e : entry) (now : Z),
       Map_get (params_streamId expired) urlCache = Some e ->
       expires e <= now ->
       Map_get (params_streamId never) urlCache = None ->
       res (proxy_handler get_accepts urlCache expired)
       = res (proxy_handler get_accepts urlCache never)).
Proof.
  intros H.
  specialize (H any_url stale_cache (plain_request "k") (plain_request "zz")
                (Entry "https://u/a" 1000) 5000 eq_refl).
  assert (E : res (proxy_handler any_url stale_cache (plain_request "k"))
              = res (proxy_handler any_url stale_cache (plain_request "zz"))).
  { apply H; [simpl; lia | reflexivity]. }
  apply (f_equal statusCode) in E. vm_compute in E. discriminate E.
Qed.

Lemma upstream_request_headers_witness :
  exists cr,
    proxyReq (proxy_handler any_url stale_cache (range_request "k" "bytes=100-199"))
    = Some cr /\
    cr_url cr = "https://u/a" /\
    cr_headers cr !! "User-Agent" = Some userAgent /\
    cr_headers cr !! "Range" = Some "bytes=100-199".
Proof.
  eexists. split.
  - apply (proxy_handler_opens any_url stale_cache
             (range_request "k" "bytes=100-199") (Entry "https://u/a" 1000));
      reflexivity.
  - split; [reflexivity|].
    destruct (upstream_request_headers any_url stale_cache
                (range_request "k" "bytes=100-199") _
                (proxy_handler_opens any_url stale_cache
                   (range_request "k" "bytes=100-199")
                   (Entry "https://u/a" 1000) eq_refl eq_refl))
      as (_ & Hua & Hrange & _).
    split; [exact Hua|]. apply Hrange; [vm_compute; reflexivity | discriminate].
Defined.

(** C5, as stated, fails for a client that sends a Range header with an
    empty value: the outbound request carries [bytes=0-], not the value
    the client supplied. *)
Lemma empty_range_not_forwarded :
  ~ (forall (get_accepts : protocol -> string -> bool) (urlCache : jsmap entry)
            (req : request) (cr : clientRequest) (v : string),
       proxyReq (proxy_handler get_accepts urlCache req) = Some cr ->
       req_headers req !! "range" = Some v ->
       cr_headers cr !! "Range" = Some v).
Proof.
  intros H.
  specialize (H any_url stale_cache (range_request "k" EmptyString) _ EmptyString
                (proxy_handler_opens any_url stale_cache
                   (range_request "k" EmptyString)
                   (Entry "https://u/a" 1000) eq_refl eq_refl)).
  assert (E : req_headers (range_request "k" EmptyString) !! "range"
              = Some EmptyString) by (vm_compute; reflexivity).
  apply H in E. vm_compute in E. discriminate E.
Qed.

Lemma response_mirrors_upstream_witness :
  let r := res (dispatch (proxy_handler any_url stale_cache
                            (range_request "k" "bytes=100-199"))
                  (UpstreamResponse 206 partial_content)) in
  statusCode r = 206 /\
  res_getHeader "Content-Type" r = Some "audio/mp4" /\
  res_getHeader "Content-Length" r = Some "100" /\
  res_getHeader "Content-Range" r = Some "bytes 100-199/500" /\
  res_getHeader "Accept-Ranges" r = Some "bytes" /\
  res_getHeader "Cache-Control" r = Some "no-cache".
Proof.
  destruct (response_mirrors_upstream any_url stale_cache
              (range_request "k" "bytes=100-199") _ 206 partial_content
              (proxy_handler_opens any_url stale_cache
                 (range_request "k" "bytes=100-199")
                 (Entry "https://u/a" 1000) eq_refl eq_refl))
    as (Hs & Hct & Hcl & Hcr & _ & _ & _ & Har & Hcc).
  cbv zeta.
  split; [exact Hs|].
  split; [apply Hct; [vm_compute; reflexivity | discriminate]|].
  split; [apply Hcl; [vm_compute; reflexivity | discriminate]|].
  split; [apply Hcr; [vm_compute; reflexivity | discriminate]|].
  split; [exact Har | exact Hcc].
Defined.

(** C4, as stated, fails for an upstream answer that carries a header
    with an empty value: the header counts as absent, so that an empty
    Content-Range is not forwarded and an empty Content-Type is replaced
    by [audio/webm]. *)
Lemma empty_upstream_header_not_forwarded :
  ~ (forall (get_accepts : protocol -> string -> bool) (urlCache : jsmap entry)
            (req : request) (cr : clientRequest) (code : Z)
            (headers : gmap string string) (name v : string),
       proxyReq (proxy_handler get_accepts urlCache req) = Some cr ->
       In name ["content-type"; "content-length"; "content-range"] ->
       headers !! name = Some v ->
       res_headers (res (dispatch (proxy_handler get_accepts urlCache req)
                           (UpstreamResponse code headers))) !! name
       = Some v).
Proof.
  intros H.
  specialize (H any_url stale_cache (plain_request "k") _ 206
                {[ "content-range" := EmptyString ]} "content-range" EmptyString
                (proxy_handler_opens any_url stale_cache (plain_request "k")
                   (Entry "https://u/a" 1000) eq_refl eq_refl)).
  assert (E : ({[ "content-range" := EmptyString ]} : gmap string string)
                !! "content-range" = Some EmptyString) by (vm_compute; reflexivity).
  apply H in E; [|simpl; tauto]. vm_compute in E. discriminate E.
Qed.

Lemma default_content_type_witness :
  res_getHeader "Content-Type"
    (res (dispatch (proxy_handler any_url stale_cache (plain_request "k"))
            (UpstreamResponse 200 ∅)))
  = Some "audio/webm".
Proof.
  eapply (default_content_type any_url).
  - apply (proxy_handler_opens any_url stale_cache (plain_request "k")
             (Entry "https://u/a" 1000)); reflexivity.
  - vm_compute. reflexivity.
Defined.

(** ** The callbacks over a run of events *)

Lemma forward_header_flags Name name headers r :
  headersSent (forward_header Name name headers r) = headersSent r /\
  res_body (forward_header Name name headers r) = res_body r /\
  res_ended (forward_header Name name headers r) = res_ended r.
Proof. unfold forward_header. now destruct (Js.truthy_prop _). Qed.

Lemma head_pending_handler get_accepts urlCache req :
  head_pending (proxy_handler get_accepts urlCache req).
Proof.
  unfold head_pending, proxy_handler.
  destruct (Map_get _ _) as [cached|]; simpl; [|discriminate].
  destruct (get_accepts _ _); simpl; [tauto | discriminate].
Qed.

Lemma head_pending_dispatch p e : head_pending p -> head_pending (dispatch p e).
Proof.
  unfold head_pending, dispatch. intros Hp.
  destruct (proxyReq p) as [cr|]; [|exact Hp].
  destruct e; try (destruct (cr_destroyed cr); [exact Hp|]).
  - unfold on_response. simpl.
    destruct (forward_header_flags "Content-Range" "content-range" headers
                (forward_header "Content-Length" "content-length" headers
                   (forward_header "Content-Type" "content-type" headers
                      (res_status code (res p))))) as (-> & -> & ->).
    destruct (forward_header_flags "Content-Length" "content-length" headers
                (forward_header "Content-Type" "content-type" headers
                   (res_status code (res p)))) as (-> & -> & ->).
    destruct (forward_header_flags "Content-Type" "content-type" headers
                (res_status code (res p))) as (-> & -> & ->).
    exact Hp.
  - unfold pipe_data. destruct (piped p); [|exact Hp]. simpl.
    unfold res_write. destruct (res_ended (res p)) eqn:Hended; [|discriminate].
    now rewrite Hended.
  - unfold pipe_end. destruct (piped p); [|exact Hp]. discriminate.
  - unfold on_error. destruct (headersSent (res p)) eqn:Hsent; simpl;
      [|discriminate].
    now rewrite Hsent.
  - exact Hp.
Qed.

Lemma head_pending_run events : forall p, head_pending p -> head_pending (run p events).
Proof.
  unfold run. induction events as [|e events IH]; intros p Hp; simpl; [exact Hp|].
  apply IH. now apply head_pending_dispatch.
Qed.

(** C6, as amended. In any state an exchange can reach with its outbound
    request made, an upstream failure before the head has gone out is
    answered with status 500 and the body [{"error":"Stream failed"}],
    which ends the response; a failure after the head has gone out
    changes nothing: status, headers and body stay as they are and the
    handler does not end the response. *)
Theorem upstream_error_response get_accepts urlCache req events cr message :
  proxyReq (run (proxy_handler get_accepts urlCache req) events) = Some cr ->
  let p := run (proxy_handler get_accepts urlCache req) events in
  (headersSent (res p) = false ->
   statusCode (res (dispatch p (UpstreamError message))) = 500 /\
   res_body (res (dispatch p (UpstreamError message)))
   = [dq "{'error':'Stream failed'}"] /\
   res_ended (res (dispatch p (UpstreamError message))) = true) /\
  (headersSent (res p) = true -> dispatch p (UpstreamError message) = p).
Proof.
  intros Hreq p.
  assert (Hp : head_pending p) by apply head_pending_run, head_pending_handler.
  unfold dispatch. fold p in Hreq. rewrite Hreq. unfold on_error. split.
  - intros Hsent. rewrite Hsent. simpl.
    destruct (Hp Hsent) as [-> _]. repeat split.
  - intros Hsent. now rewrite Hsent.
Qed.

Lemma upstream_error_response_witness :
  let p := proxy_handler any_url stale_cache (plain_request "k") in
  let q := run p [UpstreamResponse 206 partial_content; UpstreamData "abc"] in
  (statusCode (res (dispatch p (UpstreamError "socket hang up"))) = 500 /\
   res_body (res (dispatch p (UpstreamError "socket hang up")))
   = [dq "{'error':'Stream failed'}"]) /\
  dispatch q (UpstreamError "socket hang up") = q.
Proof.
  cbv zeta. split.
  - destruct (upstream_error_response any_url stale_cache (plain_request "k") []
                _ "socket hang up"
                (proxy_handler_opens any_url stale_cache (plain_request "k")
                   (Entry "https://u/a" 1000) eq_refl eq_refl)) as [H _].
    destruct (H eq_refl) as (Hs & Hb & _). split; [exact Hs | exact Hb].
  - assert (Hreq : proxyReq (run (proxy_handler any_url stale_cache (plain_request "k"))
                          [UpstreamResponse 206 partial_content; UpstreamData "abc"])
                   = Some {| cr_protocol := https; cr_url := "https://u/a";
                             cr_headers := get_headers (plain_request "k");
                             cr_destroyed := false |})
      by (vm_compute; reflexivity).
    destruct (upstream_error_response any_url stale_cache (plain_request "k")
                [UpstreamResponse 206 partial_content; UpstreamData "abc"]
                _ "socket hang up" Hreq) as [_ H].
    apply H. vm_compute. reflexivity.
Defined.

(** C6, as stated, fails on its second half: after the head and a first
    chunk have gone out, an upstream failure leaves the response open;
    the callback does not end it. *)
Lemma error_mid_stream_leaves_response_open :
  ~ (forall (get_accepts : protocol -> string -> bool) (urlCache : jsmap entry)
            (req : request) (events : list event) (cr : clientRequest)
            (message : string),
       let p := run (proxy_handler get_accepts urlCache req) events in
       proxyReq p = Some cr ->
       headersSent (res p) = true ->
       res_ended (res (dispatch p (UpstreamError message))) = true).
Proof.
  intros H.
  specialize (H any_url stale_cache (plain_request "k")
                [UpstreamResponse 206 partial_content; UpstreamData "abc"]
                {| cr_protocol := https; cr_url := "https://u/a";
                   cr_headers := get_headers (plain_request "k");
                   cr_destroyed := false |}
                "socket hang up").
  cbv zeta in H.
  assert (E : res_ended
                (res (dispatch
                        (run (proxy_handler any_url stale_cache (plain_request "k"))
                           [UpstreamResponse 206 partial_content; UpstreamData "abc"])
                        (UpstreamError "socket hang up"))) = true).
  { apply H; vm_compute; reflexivity. }
  vm_compute in E. discriminate E.
Qed.

Lemma dispatch_destroyed p e :
  is_destroyed p = true ->
  is_destroyed (dispatch p e) = true /\
  upstream_read (dispatch p e) = upstream_read p.
Proof.
  unfold is_destroyed, dispatch. destruct (proxyReq p) as [cr|] eqn:Hreq;
    [|discriminate].
  intros Hd. rewrite Hd.
  destruct e; simpl; rewrite ?Hreq; auto.
  - unfold on_error. destruct (negb (headersSent (res p))); simpl; rewrite Hreq; auto.
Qed.

Lemma run_destroyed events : forall p,
  is_destroyed p = true ->
  is_destroyed (run p events) = true /\
  upstream_read (run p events) = upstream_read p.
Proof.
  unfold run. induction events as [|e events IH]; intros p Hd; simpl; [auto|].
  destruct (dispatch_destroyed p e Hd) as [Hd' Hread].
  destruct (IH _ Hd') as [H1 H2]. split; [exact H1 | congruence].
Qed.

(** C9. When the client connection closes while the outbound request of
    the exchange exists, the very next step destroys that request, and
    whatever the runtime delivers afterwards, the request stays
    destroyed and no further chunk is taken from the upstream. *)
Theorem client_close_destroys_upstream p cr events :
  proxyReq p = Some cr ->
  proxyReq (dispatch p ClientClose) = Some (destroy cr) /\
  is_destroyed (run (dispatch p ClientClose) events) = true /\
  upstream_read (run (dispatch p ClientClose) events) = upstream_read p.
Proof.
  intros Hreq.
  assert (Hclose : dispatch p ClientClose = on_close p).
  { unfold dispatch. now rewrite Hreq. }
  rewrite Hclose. unfold on_close at 1. simpl. rewrite Hreq. split; [reflexivity|].
  destruct (run_destroyed events (on_close p)) as [H1 H2].
  - unfold is_destroyed, on_close. simpl. now rewrite Hreq.
  - split; [exact H1 | now rewrite H2].
Qed.

Lemma client_close_destroys_upstream_witness :
  let p := run (proxy_handler any_url stale_cache (plain_request "k"))
             [UpstreamResponse 206 partial_content; UpstreamData "abc"] in
  let later := [UpstreamData "def"; UpstreamEnd; UpstreamError "socket hang up"] in
  upstream_read p = ["abc"] /\
  is_destroyed (run (dispatch p ClientClose) later) = true /\
  upstream_read (run (dispatch p ClientClose) later) = upstream_read p.
Proof.
  cbv zeta. split; [vm_compute; reflexivity|].
  eapply proj2, client_close_destroys_upstream. vm_compute. reflexivity.
Defined.

(** Without the close the same chunk would have been taken. *)
Example open_stream_keeps_reading :
  upstream_read
    (run (proxy_handler any_url stale_cache (plain_request "k"))
       [UpstreamResponse 206 partial_content; UpstreamData "abc"; UpstreamData "def"])
  = ["abc"; "def"].
Proof. vm_compute. reflexivity. Qed.

(** * Further properties of the same code *)

(** ** The clean-up loop and the registrations *)

Lemma Map_delete_filter {V} k (m : jsmap V) :
  Map_delete k m = List.filter (fun b => negb (String.eqb (fst b) k)) m.
Proof.
  induction m as [|[k0 v0] m IH]; simpl; [reflexivity|].
  destruct (String.eqb k0 k); simpl; now rewrite IH.
Qed.

Lemma filter_twice {A} (f g : A -> bool) l :
  List.filter f (List.filter g l) = List.filter (fun a => (g a && f a)%bool) l.
Proof.
  induction l as [|a l IH]; simpl; [reflexivity|].
  destruct (g a); simpl; [destruct (f a)|]; now rewrite IH.
Qed.

(** With a single reading the loop removes the keys of the visited
    bindings that are expired at that reading. *)
Lemma sweep_from_constant now : forall todo i m,
  sweep_from (fun _ => now) i todo m
  = List.filter
      (fun b => negb (existsb (fun t => (String.eqb (fst t) (fst b)
                                          && (expires (snd t) <? now))%bool) todo))
      m.
Proof.
  induction todo as [|[key value] rest IH]; intros i m; simpl.
  - now rewrite filter_true.
  - rewrite IH. destruct (expires value <? now); simpl.
    + rewrite Map_delete_filter, filter_twice. apply filter_ext. intros [k v]. simpl.
      rewrite (String.eqb_sym k key). now rewrite andb_true_r, negb_orb.
    + apply filter_ext. intros [k v]. simpl. now rewrite andb_false_r.
Qed.

(** X1. In a map that binds each key once, a clean-up pass that reads
    the same time [now] at every visit is the filter that keeps, in
    order, the entries with [expires >= now]. *)
Theorem sweep_constant_clock_filter now (urlCache : jsmap entry) :
  List.NoDup (map fst urlCache) ->
  sweep (fun _ => now) urlCache = List.filter (unexpired now) urlCache.
Proof.
  intros Hnd. unfold sweep. rewrite sweep_from_constant.
  apply filter_ext_in. intros [k v] Hin. unfold unexpired. simpl. f_equal.
  destruct (expires v <? now) eqn:Hv.
  - apply existsb_exists. exists (k, v). simpl.
    now rewrite String.eqb_refl, Hv.
  - destruct (existsb _ urlCache) eqn:Hex; [|reflexivity].
    apply existsb_exists in Hex as [[k' v'] [Hin' Hc]]. simpl in Hc.
    apply andb_true_iff in Hc as [Hk Hv']. apply String.eqb_eq in Hk. subst k'.
    pose proof (NoDup_In_Map_get _ _ _ Hnd Hin) as H1.
    pose proof (NoDup_In_Map_get _ _ _ Hnd Hin') as H2.
    rewrite H1 in H2. injection H2 as <-. congruence.
Qed.

Lemma sweep_constant_clock_filter_witness :
  sweep (fun _ => 5000) two_entries = [("b", Entry "https://u/b" 9000)].
Proof.
  rewrite (sweep_constant_clock_filter 5000 two_entries).
  - reflexivity.
  - repeat constructor; simpl; intuition discriminate.
Defined.

(** X2. After the registration block of [/search], whose clean-up pass
    never reads a time below [t0], the cache holds no entry that expired
    before [t0]; the entry just registered is subject to the same
    pass. *)
Theorem search_register_leaves_no_expired
    audioUrl t_id t_exp rnd clock t0 urlCache id e :
  (forall i, t0 <= clock i) ->
  In (id, e) (snd (search_register audioUrl t_id t_exp rnd clock urlCache)) ->
  t0 <= expires e.
Proof.
  intros Hclock Hin. unfold search_register in Hin. simpl in Hin.
  eapply sweep_leaves_no_expired; [exact Hclock | exact Hin].
Qed.

Lemma search_register_leaves_no_expired_witness :
  In ("b", Entry "https://u/b" 9000)
     (snd (search_register "https://u/c" 1700000000000 4000 "0.4fzyo82mvyr"
             (fun _ => 5000) two_entries)) /\
  5000 <= expires (Entry "https://u/b" 9000).
Proof.
  assert (Hin : In ("b", Entry "https://u/b" 9000)
                  (snd (search_register "https://u/c" 1700000000000 4000
                          "0.4fzyo82mvyr" (fun _ => 5000) two_entries))).
  { vm_compute. left. reflexivity. }
  split; [exact Hin|].
  apply (search_register_leaves_no_expired "https://u/c" 1700000000000 4000
           "0.4fzyo82mvyr" (fun _ => 5000) 5000 two_entries "b" _
           (fun _ => Z.le_refl 5000%Z) Hin).
Defined.

(** X3. In a map that binds each key once, an entry whose [expires] is
    at or above every reading of a clean-up pass is kept with its value,
    so that its id still resolves; the test is strict, an entry expiring
    exactly at the reading stays. *)
Theorem sweep_spares_unexpired clock id e (urlCache : jsmap entry) :
  List.NoDup (map fst urlCache) ->
  Map_get id urlCache = Some e ->
  (forall i, clock i <= expires e) ->
  Map_get id (sweep clock urlCache) = Some e /\
  resolve id (sweep clock urlCache) = Some (url e).
Proof.
  intros Hnd Hget Hclock.
  assert (H : Map_get id (sweep clock urlCache) = Some e)
    by now apply sweep_keeps.
  split; [exact H|]. unfold resolve. now rewrite H.
Qed.

Lemma sweep_spares_unexpired_witness :
  Map_get "b" (sweep (fun _ => 9000) two_entries) = Some (Entry "https://u/b" 9000) /\
  resolve "b" (sweep (fun _ => 9000) two_entries) = Some "https://u/b".
Proof.
  apply (sweep_spares_unexpired (fun _ => 9000) "b" (Entry "https://u/b" 9000)
           two_entries).
  - repeat constructor; simpl; intuition discriminate.
  - reflexivity.
  - intros i. simpl. lia.
Defined.

Lemma Map_size_delete_le {V} k (m : jsmap V) :
  (Map_size (Map_delete k m) <= Map_size m)%nat.
Proof.
  unfold Map_size. induction m as [|[k0 v0] m IH]; simpl; [lia|].
  destruct (String.eqb k0 k); simpl; lia.
Qed.

Lemma Map_size_sweep_from_le clock : forall todo i (m : jsmap entry),
  (Map_size (sweep_from clock i todo m) <= Map_size m)%nat.
Proof.
  induction todo as [|[key value] rest IH]; intros i m; simpl; [lia|].
  etransitivity; [apply IH|].
  destruct (expires value <? clock i); [apply Map_size_delete_le | lia].
Qed.

(** X4. The clean-up pass only deletes: in a map that binds each key
    once, every id bound afterwards was bound before to the same entry,
    and the map does not grow. *)
Theorem sweep_only_deletes clock (urlCache : jsmap entry) :
  List.NoDup (map fst urlCache) ->
  (forall id e, Map_get id (sweep clock urlCache) = Some e ->
                Map_get id urlCache = Some e) /\
  (Map_size (sweep clock urlCache) <= Map_size urlCache)%nat.
Proof.
  intros Hnd. split; [|apply Map_size_sweep_from_le].
  intros id e Hget. apply Map_get_In in Hget.
  apply sweep_from_incl in Hget. now apply NoDup_In_Map_get.
Qed.

Lemma sweep_only_deletes_witness :
  (forall id e, Map_get id (sweep (fun _ => 5000) two_entries) = Some e ->
                Map_get id two_entries = Some e) /\
  (Map_size (sweep (fun _ => 5000%Z) two_entries) <= Map_size two_entries)%nat.
Proof.
  apply (sweep_only_deletes (fun _ => 5000) two_entries).
  repeat constructor; simpl; intuition discriminate.
Defined.

Lemma play_register_keeps_witness :
  Map_get "a" (snd (play_register "https://u/c" 1700000000000 1700000000000
                      "0.4fzyo82mvyr" two_entries))
  = Map_get "a" two_entries.
Proof.
  apply (play_register_keeps "https://u/c" 1700000000000 1700000000000
           "0.4fzyo82mvyr" two_entries "a").
  vm_compute. discriminate.
Defined.

Lemma keys_Map_set_existing {V} k (v v0 : V) (m : jsmap V) :
  Map_get k m = Some v0 -> map fst (Map_set k v m) = map fst m.
Proof.
  induction m as [|[k' v'] m IH]; simpl; [discriminate|].
  destruct (String.eqb_spec k' k) as [->|Hne]; simpl; [reflexivity|].
  intros H. now rewrite IH.
Qed.

(** X5. Registering under an id that is already bound replaces the entry
    where it stands: the ids and their order are unchanged, the map does
    not grow, and the id now carries the new URL and expiry. *)
Theorem register_existing_overwrites id u now e (urlCache : jsmap entry) :
  Map_get id urlCache = Some e ->
  map fst (register id u now urlCache) = map fst urlCache /\
  Map_size (register id u now urlCache) = Map_size urlCache /\
  Map_get id (register id u now urlCache) = Some (Entry u (now + TTL)).
Proof.
  intros Hget. unfold register, register_with.
  pose proof (keys_Map_set_existing id (Entry u (now + TTL)) e urlCache Hget) as Hk.
  split; [exact Hk|]. split; [|apply Map_get_set_eq].
  unfold Map_size. apply (f_equal (@length string)) in Hk.
  now rewrite !length_map in Hk.
Qed.

Lemma register_existing_overwrites_witness :
  map fst (register "a" "https://u/z" 7000 two_entries) = map fst two_entries /\
  Map_size (register "a" "https://u/z" 7000 two_entries) = Map_size two_entries /\
  Map_get "a" (register "a" "https://u/z" 7000 two_entries)
  = Some (Entry "https://u/z" (7000 + TTL)).
Proof.
  apply (register_existing_overwrites "a" "https://u/z" 7000
           (Entry "https://u/a" 1000) two_entries).
  reflexivity.
Defined.


Lemma Map_size_set_le {V} k (v : V) (m : jsmap V) :
  (Map_size (Map_set k v m) <= S (Map_size m))%nat.
Proof.
  unfold Map_size. induction m as [|[k0 v0] m IH]; simpl; [lia|].
  destruct (String.eqb k0 k); simpl; lia.
Qed.

Lemma Map_size_apply_op urlCache o :
  (Map_size (apply_op urlCache o) <= S (Map_size urlCache))%nat.
Proof.
  destruct o; simpl; unfold register, register_with.
  - etransitivity; [apply Map_size_sweep_from_le | apply Map_size_set_le].
  - apply Map_size_set_le.
Qed.

(** X6. After any history of registrations, the cache holds at most as
    many entries as registrations were made. *)
Theorem cache_size_bounded ops : (Map_size (run_ops ops) <= length ops)%nat.
Proof.
  unfold run_ops.
  assert (G : forall ops (c : jsmap entry),
             (Map_size (fold_left apply_op ops c) <= Map_size c + length ops)%nat).
  { clear ops. induction ops as [|o ops IH]; intros c; simpl; [lia|].
    specialize (IH (apply_op c o)). pose proof (Map_size_apply_op c o). lia. }
  apply (G ops []).
Qed.

(** ** The stored URL and the id *)

(** X7. The URL a registration stores, [audioUrl.split('\n')[0]], holds
    no line feed and is a prefix of the extractor's output; it is the
    whole output when that has no line feed. *)
Theorem first_line_facts audioUrl :
  has_char LF (Js.first_line audioUrl) = false /\
  String.prefix (Js.first_line audioUrl) audioUrl = true /\
  (has_char LF audioUrl = false -> Js.first_line audioUrl = audioUrl).
Proof.
  induction audioUrl as [|c rest (IH1 & IH2 & IH3)]; simpl.
  - repeat split.
  - unfold LF in *. destruct (Ascii.eqb c "010") eqn:Hc; simpl.
    + repeat split. discriminate.
    + rewrite Hc, IH1. destruct (ascii_dec c c) as [_|Hne]; [|contradiction].
      repeat split; [exact IH2|]. intros H. now rewrite IH3.
Qed.

Lemma string_length_append (a b : string) :
  String.length (String.append a b) = (String.length a + String.length b)%nat.
Proof. induction a as [|c a IH]; simpl; [reflexivity | now rewrite IH]. Qed.

Lemma substring_length : forall s n m,
  String.length (String.substring n m s) = Nat.min m (String.length s - n).
Proof.
  induction s as [|c s IH]; intros n m.
  - destruct n, m; simpl; lia.
  - destruct n as [|n].
    + destruct m as [|m]; simpl; [reflexivity|].
      rewrite IH. rewrite Nat.sub_0_r. reflexivity.
    + simpl. apply IH.
Qed.

(** X8. For a clock reading that prints as eight base-36 digits (June
    1972 to May 2059) the stream id is those eight characters followed
    by what the random text has at positions 2 to 7: between 8 and 14
    characters, fewer than 14 when the random text is short. *)
Theorem streamId_length t rnd :
  36 ^ 7 <= t < 36 ^ 8 ->
  String.length (streamId t rnd)
  = (8 + Nat.min 6 (String.length rnd - 2))%nat.
Proof.
  intros Ht. unfold streamId. rewrite string_length_append, toString36_length8 by exact Ht.
  f_equal. unfold Js.substring. apply substring_length.
Qed.

Lemma streamId_length_witness :
  String.length (streamId 1700000000000 "0.i") = (8 + Nat.min 6 (3 - 2))%nat.
Proof.
  apply (streamId_length 1700000000000 "0.i").
  split; [apply Z.leb_le | apply Z.ltb_lt]; reflexivity.
Defined.

(** ** More on the proxy exchange *)

Lemma run_app p events1 events2 :
  run p (events1 ++ events2) = run (run p events1) events2.
Proof. unfold run. apply fold_left_app. Qed.

Lemma run_cons p e events : run p (e :: events) = run (dispatch p e) events.
Proof. reflexivity. Qed.

Lemma run_one p e : run p [e] = dispatch p e.
Proof. reflexivity. Qed.

Lemma dispatch_end p cr :
  proxyReq p = Some cr -> cr_destroyed cr = false -> piped p = true ->
  dispatch p UpstreamEnd
  = {| res := res_end (res p); proxyReq := proxyReq p; piped := piped p;
       upstream_read := upstream_read p |}.
Proof. intros Hreq Hlive Hpiped. unfold dispatch, pipe_end. now rewrite Hreq, Hlive, Hpiped. Qed.

(** The relay of body chunks in an open, piped exchange. *)
Lemma run_data cr : forall chunks p,
  proxyReq p = Some cr -> cr_destroyed cr = false ->
  piped p = true -> res_ended (res p) = false ->
  let q := run p (map UpstreamData chunks) in
  res_body (res q) = res_body (res p) ++ chunks /\
  upstream_read q = upstream_read p ++ chunks /\
  statusCode (res q) = statusCode (res p) /\
  res_headers (res q) = res_headers (res p) /\
  proxyReq q = Some cr /\ piped q = true /\ res_ended (res q) = false.
Proof.
  induction chunks as [|chunk chunks IH]; intros p Hreq Hlive Hpiped Hopen; simpl.
  - rewrite !app_nil_r. repeat split; assumption.
  - assert (Hstep : dispatch p (UpstreamData chunk)
                    = {| res := res_write chunk (res p); proxyReq := proxyReq p;
                         piped := piped p;
                         upstream_read := upstream_read p ++ [chunk] |}).
    { unfold dispatch, pipe_data. now rewrite Hreq, Hlive, Hpiped. }
    unfold run in *. simpl. rewrite Hstep.
    specialize (IH {| res := res_write chunk (res p); proxyReq := proxyReq p;
                      piped := piped p;
                      upstream_read := upstream_read p ++ [chunk] |}).
    unfold res_write in *. rewrite Hopen in *. simpl in IH.
    destruct (IH Hreq Hlive Hpiped eq_refl) as (H1 & H2 & H3 & H4 & H5 & H6 & H7).
    rewrite H1, H2, H3, H4, H5, H6, H7, <- !app_assoc. repeat split.
Qed.

Section ProxyMore.
Variable get_accepts : protocol -> string -> bool.

(** X9. When the id is bound but [protocol.get] throws on the stored
    URL, the handler answers 500 with exactly the body
    [{"error":"Failed to proxy stream"}], ends the response and leaves no
    outbound request. *)
Theorem proxy_get_throws urlCache req cached :
  Map_get (params_streamId req) urlCache = Some cached ->
  get_accepts (protocol_of (url cached)) (url cached) = false ->
  let p := proxy_handler get_accepts urlCache req in
  statusCode (res p) = 500 /\
  res_body (res p) = [dq "{'error':'Failed to proxy stream'}"] /\
  res_ended (res p) = true /\
  proxyReq p = None.
Proof.
  intros Hget Hacc. unfold proxy_handler. rewrite Hget, Hacc. simpl.
  repeat split.
Qed.

(** X10. A whole exchange: once the handler has made the outbound
    request, an upstream answer followed by any chunks and the end of
    the body gives the client the upstream's status, exactly those
    chunks in the order they came, and an ended response. *)
Theorem proxy_relays_chunks urlCache req cr code headers chunks :
  proxyReq (proxy_handler get_accepts urlCache req) = Some cr ->
  let p := run (proxy_handler get_accepts urlCache req)
             (UpstreamResponse code headers :: map UpstreamData chunks
              ++ [UpstreamEnd]) in
  statusCode (res p) = code /\
  res_body (res p) = chunks /\
  upstream_read p = chunks /\
  res_ended (res p) = true.
Proof.
  intros H. apply proxy_handler_request in H as (cached & Hget & -> & ->).
  cbv zeta. rewrite run_cons, run_app, run_one.
  remember (dispatch _ (UpstreamResponse code headers)) as p1 eqn:Hp1.
  destruct (forward_header_flags "Content-Range" "content-range" headers
              (forward_header "Content-Length" "content-length" headers
                 (forward_header "Content-Type" "content-type" headers
                    (res_status code (audio_head fresh_response)))))
    as (_ & Hb1 & He1).
  destruct (forward_header_flags "Content-Length" "content-length" headers
              (forward_header "Content-Type" "content-type" headers
                 (res_status code (audio_head fresh_response))))
    as (_ & Hb2 & He2).
  destruct (forward_header_flags "Content-Type" "content-type" headers
              (res_status code (audio_head fresh_response)))
    as (_ & Hb3 & He3).
  assert (Hreq : proxyReq p1
                 = Some {| cr_protocol := protocol_of (url cached);
                           cr_url := url cached; cr_headers := get_headers req;
                           cr_destroyed := false |}) by (subst p1; reflexivity).
  assert (Hpiped : piped p1 = true) by (subst p1; reflexivity).
  assert (Hread : upstream_read p1 = []) by (subst p1; reflexivity).
  assert (Hbody : res_body (res p1) = []).
  { subst p1. unfold dispatch, on_response. simpl. now rewrite Hb1, Hb2, Hb3. }
  assert (Hopen : res_ended (res p1) = false).
  { subst p1. unfold dispatch, on_response. simpl. now rewrite He1, He2, He3. }
  assert (Hcode : statusCode (res p1) = code).
  { subst p1. unfold dispatch, on_response. simpl.
    now rewrite !statusCode_forward_header. }
  clear Hp1.
  destruct (run_data _ chunks p1 Hreq eq_refl Hpiped Hopen)
    as (H1 & H2 & H3 & _ & H5 & H6 & _).
  remember (run p1 (map UpstreamData chunks)) as q eqn:Hq. clear Hq.
  rewrite (dispatch_end q _ H5 eq_refl H6). simpl.
  rewrite H1, H2, H3, Hbody, Hread, Hcode. repeat split.
Qed.

(** X11. An exchange in which the handler made no outbound request (the
    404 of an unbound id, the 500 of a refused URL) is final: nothing the
    runtime delivers afterwards changes it. *)
Theorem no_request_no_effect urlCache req events :
  proxyReq (proxy_handler get_accepts urlCache req) = None ->
  run (proxy_handler get_accepts urlCache req) events
  = proxy_handler get_accepts urlCache req.
Proof.
  generalize (proxy_handler get_accepts urlCache req). intros p Hreq.
  unfold run. induction events as [|e events IH]; simpl; [reflexivity|].
  unfold dispatch at 2. rewrite Hreq. exact IH.
Qed.

(** X12. The outbound request carries the two headers the handler
    writes and no other: whatever else the client sent (cookies,
    credentials, its own User-Agent) is not passed to the upstream. *)
Theorem upstream_headers_only_two urlCache req cr name :
  proxyReq (proxy_handler get_accepts urlCache req) = Some cr ->
  name <> "Range" -> name <> "User-Agent" ->
  cr_headers cr !! name = None.
Proof.
  intros H Hr Hu. apply proxy_handler_request in H as (cached & Hget & -> & _).
  simpl. unfold get_headers.
  rewrite lookup_insert_ne by congruence.
  rewrite lookup_insert_ne by congruence.
  apply lookup_empty.
Qed.

End ProxyMore.

(** X13. The error callback answers at most once: after a first upstream
    failure a second one leaves the exchange as it is. *)
Theorem error_answered_once p message1 message2 :
  dispatch (dispatch p (UpstreamError message1)) (UpstreamError message2)
  = dispatch p (UpstreamError message1).
Proof.
  unfold dispatch. destruct (proxyReq p) as [cr|] eqn:Hreq; [|now rewrite Hreq].
  unfold on_error. destruct (headersSent (res p)) eqn:Hsent; simpl.
  - now rewrite Hreq, Hsent.
  - now rewrite Hreq.
Qed.

Lemma proxy_get_throws_witness :
  let p := proxy_handler (fun _ _ => false) stale_cache (plain_request "k") in
  statusCode (res p) = 500 /\
  res_body (res p) = [dq "{'error':'Failed to proxy stream'}"] /\
  res_ended (res p) = true /\
  proxyReq p = None.
Proof.
  apply (proxy_get_throws (fun _ _ => false) stale_cache (plain_request "k")
           (Entry "https://u/a" 1000)); reflexivity.
Defined.

Lemma proxy_relays_chunks_witness :
  let p := run (proxy_handler any_url stale_cache (range_request "k" "bytes=0-5"))
             (UpstreamResponse 206 partial_content
              :: map UpstreamData ["abc"; "def"] ++ [UpstreamEnd]) in
  statusCode (res p) = 206 /\
  res_body (res p) = ["abc"; "def"] /\
  upstream_read p = ["abc"; "def"] /\
  res_ended (res p) = true.
Proof.
  eapply (proxy_relays_chunks any_url stale_cache (range_request "k" "bytes=0-5")).
  apply (proxy_handler_opens any_url stale_cache (range_request "k" "bytes=0-5")
           (Entry "https://u/a" 1000)); reflexivity.
Defined.

Lemma no_request_no_effect_witness :
  run (proxy_handler any_url stale_cache (plain_request "zz"))
      [UpstreamResponse 200 partial_content; UpstreamData "abc"; ClientClose]
  = proxy_handler any_url stale_cache (plain_request "zz").
Proof.
  apply (no_request_no_effect any_url stale_cache (plain_request "zz")).
  reflexivity.
Defined.

Lemma upstream_headers_only_two_witness :
  exists cr,
    proxyReq (proxy_handler any_url stale_cache
                {| params_streamId := "k";
                   req_headers := {[ "cookie" := "session=1" ]} |}) = Some cr /\
    cr_headers cr !! "cookie" = None.
Proof.
  eexists. split.
  - apply (proxy_handler_opens any_url stale_cache _ (Entry "https://u/a" 1000));
      reflexivity.
  - eapply (upstream_headers_only_two any_url stale_cache
              {| params_streamId := "k";
                 req_headers := {[ "cookie" := "session=1" ]} |}).
    + apply (proxy_handler_opens any_url stale_cache _ (Entry "https://u/a" 1000));
        reflexivity.
    + discriminate.
    + discriminate.
Defined.

(** ** The thumbnail exchange *)

Lemma head_pending_thumb_dispatch p e p' :
  head_pending p -> thumb_dispatch p e = Some p' -> head_pending p'.
Proof.
  unfold head_pending, thumb_dispatch. intros Hp.
  destruct (proxyReq p) as [cr|]; [|now intros [= <-]].
  destruct e.
  - unfold thumb_on_response, res_setHeader_checked.
    destruct (headersSent (res p)) eqn:Hsent; [discriminate|]. simpl.
    rewrite Hsent. intros [= <-]. simpl. auto.
  - intros [= <-]. unfold pipe_data. destruct (piped p); [|exact Hp]. simpl.
    unfold res_write. destruct (res_ended (res p)) eqn:Hended; [|discriminate].
    now rewrite Hended.
  - intros [= <-]. unfold pipe_end. destruct (piped p); [|exact Hp]. discriminate.
  - unfold thumb_on_error, res_send. simpl.
    destruct (headersSent (res p)); [discriminate|]. intros [= <-]. discriminate.
  - now intros [= <-].
Qed.

Lemma head_pending_thumb_run : forall events p p',
  head_pending p -> thumb_run p events = Some p' -> head_pending p'.
Proof.
  induction events as [|e events IH]; simpl; intros p p' Hp.
  - now intros [= <-].
  - destruct (thumb_dispatch p e) as [p1|] eqn:Hstep; [|discriminate].
    apply IH. eapply head_pending_thumb_dispatch; eassumption.
Qed.


Section ThumbnailFacts.
Variable decodeURIComponent : string -> option string.
Variable get_accepts : protocol -> string -> bool.

Lemma thumbnail_handler_request params_url p cr :
  thumbnail_handler decodeURIComponent get_accepts params_url = Some p ->
  proxyReq p = Some cr ->
  exists thumbnailUrl,
    decodeURIComponent params_url = Some thumbnailUrl /\
    cr = {| cr_protocol := protocol_of thumbnailUrl; cr_url := thumbnailUrl;
            cr_headers := {[ "User-Agent" := thumbnailAgent ]};
            cr_destroyed := false |} /\
    p = {| res := fresh_response; proxyReq := Some cr; piped := false;
           upstream_read := [] |}.
Proof.
  unfold thumbnail_handler.
  destruct (decodeURIComponent params_url) as [thumbnailUrl|]; [|discriminate].
  destruct (get_accepts _ _); simpl.
  - intros [= <-]. simpl. intros [= <-]. eauto.
  - intros [= <-]. discriminate.
Qed.

Lemma thumbnail_handler_pending params_url p :
  thumbnail_handler decodeURIComponent get_accepts params_url = Some p ->
  head_pending p /\ is_destroyed p = false.
Proof.
  unfold thumbnail_handler, head_pending, is_destroyed.
  destruct (decodeURIComponent params_url) as [thumbnailUrl|]; [|discriminate].
  destruct (get_accepts _ _); simpl; intros [= <-]; simpl; split; auto; discriminate.
Qed.

(** X14. When the thumbnail upstream answers, the outer response keeps
    status 200 whatever status the upstream sent (the status is not
    mirrored); it carries the upstream's Content-Type when that is
    present and non-empty and [image/jpeg] otherwise, and
    [Cache-Control: public, max-age=86400]. The outbound request went to
    the decoded URL. *)
Theorem thumbnail_response_head params_url p cr code headers :
  thumbnail_handler decodeURIComponent get_accepts params_url = Some p ->
  proxyReq p = Some cr ->
  decodeURIComponent params_url = Some (cr_url cr) /\
  exists p',
    thumb_dispatch p (UpstreamResponse code headers) = Some p' /\
    statusCode (res p') = 200 /\
    res_getHeader "Content-Type" (res p')
    = Some (Js.or_default (headers !! "content-type") "image/jpeg") /\
    res_getHeader "Cache-Control" (res p') = Some "public, max-age=86400" /\
    piped p' = true.
Proof.
  intros Hh Hreq.
  destruct (thumbnail_handler_request _ _ _ Hh Hreq) as (u & Hdec & -> & ->).
  split; [exact Hdec|]. eexists. split; [reflexivity|]. simpl.
  split; [reflexivity|]. split; [|split; [|reflexivity]]; now read_header.
Qed.

(** X15. In any state a thumbnail exchange can reach with its outbound
    request made, an upstream failure before the head has gone out is
    answered 404 with the body [Thumbnail not found]; once the head has
    gone out the same callback has no guard and throws instead of
    answering. *)
Theorem thumbnail_error params_url p0 events p cr message :
  thumbnail_handler decodeURIComponent get_accepts params_url = Some p0 ->
  thumb_run p0 events = Some p ->
  proxyReq p = Some cr ->
  (headersSent (res p) = false ->
   exists p', thumb_dispatch p (UpstreamError message) = Some p' /\
              statusCode (res p') = 404 /\
              res_body (res p') = ["Thumbnail not found"] /\
              res_ended (res p') = true) /\
  (headersSent (res p) = true ->
   thumb_dispatch p (UpstreamError message) = None).
Proof.
  intros Hh Hrun Hreq.
  assert (Hp : head_pending p).
  { eapply head_pending_thumb_run; [|exact Hrun].
    now apply (thumbnail_handler_pending params_url). }
  unfold thumb_dispatch, thumb_on_error, res_send. rewrite Hreq. simpl. split.
  - intros Hsent. rewrite Hsent. destruct (Hp Hsent) as [Hbody _].
    eexists. split; [reflexivity|]. simpl. now rewrite Hbody.
  - intros Hsent. now rewrite Hsent.
Qed.


(** X17. When the parameter decodes but [protocol.get] throws on the
    decoded URL, the handler answers 500 with the body
    [Failed to fetch thumbnail] and makes no outbound request. *)
Theorem thumbnail_get_throws params_url thumbnailUrl :
  decodeURIComponent params_url = Some thumbnailUrl ->
  get_accepts (protocol_of thumbnailUrl) thumbnailUrl = false ->
  exists p,
    thumbnail_handler decodeURIComponent get_accepts params_url = Some p /\
    statusCode (res p) = 500 /\
    res_body (res p) = ["Failed to fetch thumbnail"] /\
    res_ended (res p) = true /\
    proxyReq p = None.
Proof.
  intros Hdec Hacc. unfold thumbnail_handler. rewrite Hdec, Hacc. simpl.
  eexists. split; [reflexivity|]. repeat split.
Qed.

End ThumbnailFacts.

Lemma thumbnail_response_head_witness :
  exists p p',
    thumbnail_handler identity_decode any_url "https://i/1.jpg" = Some p /\
    thumb_dispatch p (UpstreamResponse 404 ∅) = Some p' /\
    statusCode (res p') = 200 /\
    res_getHeader "Content-Type" (res p') = Some "image/jpeg".
Proof.
  destruct (thumbnail_response_head identity_decode any_url "https://i/1.jpg"
              _ _ 404 ∅ eq_refl eq_refl)
    as (_ & p' & Hstep & Hstatus & Htype & _).
  eexists. exists p'. split; [reflexivity|].
  split; [exact Hstep|]. split; [exact Hstatus | exact Htype].
Defined.

Lemma thumbnail_error_witness :
  exists p0 p,
    thumbnail_handler identity_decode any_url "https://i/1.jpg" = Some p0 /\
    thumb_run p0 [UpstreamResponse 200 ∅; UpstreamData "abc"] = Some p /\
    thumb_dispatch p (UpstreamError "socket hang up") = None /\
    exists p', thumb_dispatch p0 (UpstreamError "socket hang up") = Some p' /\
               statusCode (res p') = 404.
Proof.
  eexists. eexists. split; [reflexivity|]. split; [vm_compute; reflexivity|].
  split.
  - eapply (thumbnail_error identity_decode any_url "https://i/1.jpg" _
              [UpstreamResponse 200 ∅; UpstreamData "abc"] _ _ "socket hang up");
      vm_compute; reflexivity.
  - destruct (thumbnail_error identity_decode any_url "https://i/1.jpg" _
                [] _ _ "socket hang up" eq_refl eq_refl eq_refl) as [H _].
    destruct (H eq_refl) as (p' & Hstep & Hstatus & _).
    exists p'. split; [exact Hstep | exact Hstatus].
Defined.


Lemma thumbnail_get_throws_witness :
  exists p,
    thumbnail_handler identity_decode (fun _ _ => false) "nothing" = Some p /\
    statusCode (res p) = 500 /\
    res_body (res p) = ["Failed to fetch thumbnail"] /\
    res_ended (res p) = true /\
    proxyReq p = None.
Proof.
  apply (thumbnail_get_throws identity_decode (fun _ _ => false) "nothing" "nothing");
    reflexivity.
Defined.

(** ** The handlers that shape the extractor's answers *)

Lemma or_default_nonempty o d : d <> EmptyString -> Js.or_default o d <> EmptyString.
Proof.
  intros Hd. unfold Js.or_default, Js.truthy_prop.
  destruct o as [[|c s]|]; simpl; try exact Hd. discriminate.
Qed.

Lemma prefix_append (a b : string) : String.prefix a (String.append a b) = true.
Proof.
  induction a as [|c a IH]; simpl; [now destruct b|].
  destruct (ascii_dec c c); [exact IH | contradiction].
Qed.

Lemma truthy_prop_truthy o s : Js.truthy_prop o = Some s -> o = Some s /\ s <> EmptyString.
Proof.
  unfold Js.truthy_prop. destruct o as [[|c t]|]; simpl; try discriminate.
  intros [= <-]. split; [reflexivity | discriminate].
Qed.

Section HandlerFacts.
Variable encodeURIComponent : string -> string.
Variable null_read_message : string.

Lemma thumbnail_link_shape thumbnail :
  thumbnail_link encodeURIComponent thumbnail = EmptyString \/
  String.prefix "/thumbnail/" (thumbnail_link encodeURIComponent thumbnail) = true.
Proof.
  unfold thumbnail_link. destruct (Js.truthy_prop thumbnail); [right | now left].
  apply prefix_append.
Qed.

(** X18. Whatever the extractor printed, a track of any reply has a
    non-empty title and a non-empty channel (the defaults fill in), and
    its thumbnail is either empty or a link under [/thumbnail/]; a track
    of [/search-list] carries no stream link. *)
Theorem track_fields_filled metadata id :
  let shaped t :=
    track_title t <> EmptyString /\ track_channel t <> EmptyString /\
    (track_thumbnail t = EmptyString \/
     String.prefix "/thumbnail/" (track_thumbnail t) = true) in
  shaped (search_track encodeURIComponent metadata id) /\
  shaped (play_track encodeURIComponent metadata id) /\
  shaped (list_track encodeURIComponent metadata) /\
  track_audioUrl (list_track encodeURIComponent metadata) = None.
Proof.
  cbv zeta. unfold search_track, play_track, list_track. simpl.
  repeat split;
    solve [ apply or_default_nonempty; (discriminate || apply or_default_nonempty; discriminate)
          | apply thumbnail_link_shape ].
Qed.


(** X20. When [/search] succeeds, the reply's [audioUrl] is [/proxy/]
    followed by the new id, and as long as the clean-up pass of the same
    request ends within the hour, a later [GET /proxy/id] makes the
    outbound request to the first line of what the extractor printed,
    with the protocol its prefix selects. *)
Theorem search_link_reaches_upstream
    query parsed audioUrl t_id t_exp rnd clock urlCache get_accepts headers :
  Js.truthy_prop query <> None ->
  audioUrl <> EmptyString ->
  List.NoDup (map fst urlCache) ->
  (forall i, clock i <= t_exp + TTL) ->
  get_accepts (protocol_of (Js.first_line audioUrl)) (Js.first_line audioUrl) = true ->
  let answer := search_handler encodeURIComponent query (Resolved (Some parsed))
                  (Resolved audioUrl) t_id t_exp rnd clock urlCache in
  exists t,
    fst answer = ReplyTrack t /\
    track_audioUrl t = Some (String.append "/proxy/" (streamId t_id rnd)) /\
    proxyReq (proxy_handler get_accepts (snd answer)
                {| params_streamId := streamId t_id rnd; req_headers := headers |})
    = Some {| cr_protocol := protocol_of (Js.first_line audioUrl);
              cr_url := Js.first_line audioUrl;
              cr_headers := get_headers {| params_streamId := streamId t_id rnd;
                                           req_headers := headers |};
              cr_destroyed := false |}.
Proof.
  intros Hq Ha Hnd Hclock Hacc. cbv zeta. unfold search_handler.
  destruct (Js.truthy_prop query) as [q|]; [|contradiction].
  destruct audioUrl as [|c rest]; [contradiction|]. simpl Js.truthy. cbv iota.
  eexists. split; [reflexivity|]. split; [reflexivity|].
  simpl snd.
  pose proof (resolve_search_register (String c rest) t_id t_exp rnd clock urlCache
                Hnd Hclock) as Hres.
  unfold resolve in Hres. simpl fst in Hres.
  destruct (Map_get (streamId t_id rnd)
              (snd (search_register (String c rest) t_id t_exp rnd clock urlCache)))
    as [cached|] eqn:Hget; [|discriminate].
  injection Hres as Hurl.
  rewrite (proxy_handler_opens get_accepts _ _ cached); simpl; rewrite ?Hurl; auto.
Qed.

(** X21. When yt-dlp printed [null] for the metadata and an audio URL,
    [/play] answers 500 without any id, and yet the stream has been
    registered: the entry is in the cache and resolves. [/search] on the
    same answers registers nothing. *)
Theorem play_null_metadata_registers audioUrl t_id t_exp rnd clock urlCache query :
  fst (play_handler encodeURIComponent (Resolved None) (Resolved audioUrl)
         t_id t_exp rnd urlCache)
  = ReplyError 500 "Failed to get stream URL" None /\
  resolve (streamId t_id rnd)
    (snd (play_handler encodeURIComponent (Resolved None) (Resolved audioUrl)
            t_id t_exp rnd urlCache))
  = Some (Js.first_line audioUrl) /\
  snd (search_handler encodeURIComponent query (Resolved None) (Resolved audioUrl)
         t_id t_exp rnd clock urlCache)
  = urlCache.
Proof.
  split; [reflexivity|]. split.
  - apply (resolve_play_register audioUrl t_id t_exp rnd urlCache).
  - unfold search_handler. now destruct (Js.truthy_prop query).
Qed.

(** X22. When the extractor printed nothing for the audio URL, [/play]
    still registers: the reply links to an id that resolves to the empty
    URL. [/search] refuses the same output with a 500 and registers
    nothing. *)
Theorem play_registers_empty_output parsed t_id t_exp rnd clock urlCache query :
  Js.truthy_prop query <> None ->
  fst (play_handler encodeURIComponent (Resolved (Some parsed))
         (Resolved EmptyString) t_id t_exp rnd urlCache)
  = ReplyTrack (play_track encodeURIComponent parsed (streamId t_id rnd)) /\
  resolve (streamId t_id rnd)
    (snd (play_handler encodeURIComponent (Resolved (Some parsed))
            (Resolved EmptyString) t_id t_exp rnd urlCache))
  = Some EmptyString /\
  search_handler encodeURIComponent query (Resolved (Some parsed))
    (Resolved EmptyString) t_id t_exp rnd clock urlCache
  = (ReplyError 500 "Failed to fetch audio stream"
       (Some "Could not extract audio URL"), urlCache).
Proof.
  intros Hq. split; [reflexivity|]. split.
  - apply (resolve_play_register EmptyString t_id t_exp rnd urlCache).
  - unfold search_handler. destruct (Js.truthy_prop query); [reflexivity | contradiction].
Qed.


End HandlerFacts.


Lemma search_link_reaches_upstream_witness :
  let answer := search_handler (fun s => s) (Some "song") (Resolved (Some sample_info))
                  (Resolved "https://u/c") 1700000000000 8000 "0.4fzyo82mvyr"
                  (fun _ => 9000) two_entries in
  exists t,
    fst answer = ReplyTrack t /\
    track_audioUrl t = Some "/proxy/loyw3v284fzyo8" /\
    proxyReq (proxy_handler any_url (snd answer) (plain_request "loyw3v284fzyo8"))
    = Some {| cr_protocol := https; cr_url := "https://u/c";
              cr_headers := get_headers (plain_request "loyw3v284fzyo8");
              cr_destroyed := false |}.
Proof.
  apply (search_link_reaches_upstream (fun s => s) (Some "song") sample_info
           "https://u/c" 1700000000000 8000 "0.4fzyo82mvyr" (fun _ => 9000)
           two_entries any_url ∅).
  - discriminate.
  - discriminate.
  - repeat constructor; simpl; intuition discriminate.
  - intros i. unfold TTL. lia.
  - reflexivity.
Defined.

Lemma play_registers_empty_output_witness :
  resolve (streamId 1700000000000 "0.4fzyo82mvyr")
    (snd (play_handler (fun s => s) (Resolved (Some sample_info))
            (Resolved EmptyString) 1700000000000 1700000000000 "0.4fzyo82mvyr"
            two_entries))
  = Some EmptyString.
Proof.
  eapply proj1, proj2,
    (play_registers_empty_output (fun s => s) sample_info 1700000000000
       1700000000000 "0.4fzyo82mvyr" (fun _ => 0) two_entries (Some "song")).
  discriminate.
Defined.

